(** * Room-scoped broadcast core of the Rider Online backend

    A shallow embedding of [src/main.py]: the [ConnectionManager] registry
    ([connect], [disconnect], [broadcast]), the websocket entry point
    [ws_room] and the room-code lookups of the HTTP endpoints.

    - [self.active : Dict[str, List[WebSocket]]] is a [gmap string (list WebSocket)].
    - A [WebSocket] is compared by object identity in Python ([in], [list.remove]),
      so it is modelled by its identity, a natural number.
    - Starlette's websocket is outside the repository: its [accept], [send_json]
      and [receive_json] form the [Transport] interface; every operation either
      returns or raises a subclass of [Exception]. Cancellation of a task is
      not modelled.
    - Exceptions are explicit: a computation returns [Ok] or [Raise], and the
      state reached before a raise is kept, as in Python.
    - The operations are first modelled as they run when nothing else is
      scheduled between their steps. Module [Async] then models the event
      loop: a [broadcast] suspended in a send, the list objects it shares with
      [connect] and [disconnect], and the schedules that interleave them. *)

From Stdlib Require Import Ascii String.
From stdpp Require Import gmap strings list fin_maps.

(** ** Values *)

(** Identity of a websocket object. *)
Definition WebSocket := nat.

(** The JSON payload routed verbatim by the core. *)
Definition Message := string.

(** The exceptions the code distinguishes: [WebSocketDisconnect] has a clause
    of its own in [ws_room], every other [Exception] falls in the second. *)
Inductive exn :=
| WebSocketDisconnect
| RuntimeError.

Inductive result (A : Type) :=
| Ok (a : A)
| Raise (e : exn).
Arguments Ok {A} a.
Arguments Raise {A} e.

(** The websocket operations used by the code. Each call may change the
    state of the link and either returns or raises. *)
Class Transport (Link : Type) := {
  ws_accept : WebSocket → Link → Link * result unit;
  ws_send_json : WebSocket → Message → Link → Link * result unit;
  ws_receive_json : WebSocket → Link → Link * result Message
}.

(** [list.remove(x)]: drops the first occurrence of [x]. *)
Fixpoint list_remove (x : WebSocket) (l : list WebSocket) : list WebSocket :=
  match l with
  | [] => []
  | y :: l' => if decide (x = y) then l' else y :: list_remove x l'
  end.

(** How often a session occurs in a list. *)
Definition occurrences (x : WebSocket) (l : list WebSocket) : nat :=
  length (filter (λ y, y = x) l).

(** ** The connection manager *)

Section Manager.
Context {Link : Type} `{!Transport Link}.

(** The process state: the manager's registry, the link, and the frames
    the link has taken so far (latest last). *)
Record World := mkWorld {
  active : gmap string (list WebSocket);
  link : Link;
  sent : list (WebSocket * Message)
}.

Definition M (A : Type) : Type := World → result A * World.

#[global] Instance M_ret : MRet M := λ A a w, (Ok a, w).
#[global] Instance M_bind : MBind M := λ A B f m w,
  match m w with
  | (Ok a, w') => f a w'
  | (Raise e, w') => (Raise e, w')
  end.

(** [try: body / except Exception: handler]. *)
Definition try_except {A} (body : M A) (handler : exn → M A) : M A := λ w,
  match body w with
  | (Ok a, w') => (Ok a, w')
  | (Raise e, w') => handler e w'
  end.

Definition set_active (a : gmap string (list WebSocket)) : M unit := λ w,
  (Ok tt, mkWorld a (link w) (sent w)).

Definition get_active : M (gmap string (list WebSocket)) := λ w, (Ok (active w), w).

Definition accept (websocket : WebSocket) : M unit := λ w,
  let '(k, r) := ws_accept websocket (link w) in
  (r, mkWorld (active w) k (sent w)).

Definition send_json (websocket : WebSocket) (message : Message) : M unit := λ w,
  match ws_send_json websocket message (link w) with
  | (k, Ok _) => (Ok tt, mkWorld (active w) k (sent w ++ [(websocket, message)]))
  | (k, Raise e) => (Raise e, mkWorld (active w) k (sent w))
  end.

Definition receive_json (websocket : WebSocket) : M Message := λ w,
  let '(k, r) := ws_receive_json websocket (link w) in
  (r, mkWorld (active w) k (sent w)).

(** [ConnectionManager.connect] *)
Definition connect (room : string) (websocket : WebSocket) : M unit :=
  accept websocket;;
  a ← get_active;
  set_active (<[room := default [] (a !! room) ++ [websocket]]> a).

(** [ConnectionManager.disconnect] *)
Definition disconnect (room : string) (websocket : WebSocket) : M unit :=
  a ← get_active;
  match a !! room with
  | Some l =>
      if decide (websocket ∈ l) then
        let l' := list_remove websocket l in
        match l' with
        | [] => set_active (delete room a)
        | _ => set_active (<[room := l']> a)
        end
      else mret tt
  | None => mret tt
  end.

(** The [for ws in self.active[room]] loop of [broadcast]. *)
Fixpoint broadcast_loop (message : Message) (l living : list WebSocket)
  : M (list WebSocket) :=
  match l with
  | [] => mret living
  | ws :: rest =>
      living' ← try_except (send_json ws message;; mret (living ++ [ws]))
                           (λ _, mret living);
      broadcast_loop message rest living'
  end.

(** [ConnectionManager.broadcast] *)
Definition broadcast (room : string) (message : Message) : M unit :=
  a ← get_active;
  match a !! room with
  | None => mret tt
  | Some l =>
      living ← broadcast_loop message l [];
      a' ← get_active;
      set_active (<[room := living]> a')
  end.

End Manager.

Arguments World Link : clear implicits.
Arguments M Link A : clear implicits.

(** ** Room codes *)

(** [str.upper] on the ASCII range, the alphabet of the generated codes
    ([ascii_uppercase + digits]); other bytes are left as they are. *)
Definition ascii_upper (c : ascii) : ascii :=
  let n := nat_of_ascii c in
  if (97 <=? n) && (n <=? 122) then ascii_of_nat (n - 32) else c.


Fixpoint upper (s : string) : string :=
  match s with
  | EmptyString => EmptyString
  | String c s' => String (ascii_upper c) (upper s')
  end.


(** ** The websocket entry point *)

(** What a connection's task has done after reading at most [n] frames:
    it is still in its [while True] loop, or [ws_room] has returned. *)
Inductive progress :=
| Receiving
| Returned.

Section Endpoint.
Context {Link : Type} `{!Transport Link}.

(** [while True: data = await websocket.receive_json();
                 await manager.broadcast(code, data)], cut after [n] frames. *)
Fixpoint receive_loop (n : nat) (code : string) (websocket : WebSocket)
  : M Link progress :=
  match n with
  | 0 => mret Receiving
  | S n' =>
      data ← receive_json websocket;
      broadcast code data;;
      receive_loop n' code websocket
  end.

(** [ws_room] *)
Definition ws_room (websocket : WebSocket) (code : string) (n : nat)
  : M Link progress :=
  let code := upper code in
  connect code websocket;;
  try_except (receive_loop n code websocket)
    (λ e, match e with
          | WebSocketDisconnect => disconnect code websocket;; mret Returned
          | _ => disconnect code websocket;; mret Returned
          end).

(** *** What the link answers to a run of sends

    [send_outcomes message l k] lists, for the sessions of [l] in order,
    whether the link starting in state [k] takes [message] ([true]) or
    raises ([false]); [link_after] is the state it is left in. *)
Definition took (r : result unit) : bool :=
  match r with Ok _ => true | Raise _ => false end.

Fixpoint send_outcomes (message : Message) (l : list WebSocket) (k : Link)
  : list bool :=
  match l with
  | [] => []
  | ws :: rest =>
      let '(k', r) := ws_send_json ws message k in
      took r :: send_outcomes message rest k'
  end.

Fixpoint link_after (message : Message) (l : list WebSocket) (k : Link) : Link :=
  match l with
  | [] => k
  | ws :: rest => link_after message rest (ws_send_json ws message k).1
  end.

(** The sessions of [l] kept by a list of outcomes. *)
Definition kept (l : list WebSocket) (outs : list bool) : list WebSocket :=
  (filter (λ p, p.2 = true) (zip l outs)).*1.


End Endpoint.

(** ** A concrete link

    Used to run the model: the sockets in [severed] raise on every send,
    those in [refused] fail their handshake, [inbound] holds the frames still
    to be read, in order, and a socket with nothing left to read raises
    [WebSocketDisconnect]. *)
Record Wire := mkWire {
  severed : list WebSocket;
  refused : list WebSocket;
  inbound : list (WebSocket * result Message)
}.

Fixpoint take_frame (ws : WebSocket) (q : list (WebSocket * result Message))
  : option (result Message * list (WebSocket * result Message)) :=
  match q with
  | [] => None
  | (ws', f) :: q' =>
      if decide (ws = ws') then Some (f, q')
      else match take_frame ws q' with
           | Some (g, q'') => Some (g, (ws', f) :: q'')
           | None => None
           end
  end.

#[global] Instance Wire_transport : Transport Wire := {
  ws_accept ws k :=
    (k, if decide (ws ∈ refused k) then Raise RuntimeError else Ok tt);
  ws_send_json ws _ k :=
    (k, if decide (ws ∈ severed k) then Raise RuntimeError else Ok tt);
  ws_receive_json ws k :=
    match take_frame ws (inbound k) with
    | Some (f, q) => (mkWire (severed k) (refused k) q, f)
    | None => (k, Raise WebSocketDisconnect)
    end
}.

(** A link with the severed sockets [sev], none refused, nothing to read. *)
Definition quiet (sev : list WebSocket) : Wire := mkWire sev [] [].

(** The process with registry [a] on link [k], before any frame is sent. *)
Definition world0 (a : gmap string (list WebSocket)) (k : Wire) : World Wire :=
  mkWorld a k [].

(** ** The room directory and the HTTP endpoints

    The [database] module is outside the repository: [get_documents],
    [create_document] and [update_one] form the [Database] interface. Room
    documents have the fields of [schemas.GameRoom]; timestamps are left out,
    no control flow reads them. *)

Record RoomDoc := mkRoomDoc {
  code : string;
  host_id : string;
  status : string;
  players : list string
}.

Record PlayerDoc := mkPlayerDoc {
  name : string;
  avatar : option string
}.

Inductive Document :=
| PlayerDocument (p : PlayerDoc)
| RoomDocument (r : RoomDoc).

(** The two updates the endpoints issue: [$addToSet players] and [$set status]. *)
Inductive Update :=
| AddToSetPlayers (player_id : string)
| SetStatus (s : string).

Class Database (DB : Type) := {
  (** [get_documents(collection, {"code": code}, limit)] *)
  get_documents : string → string → nat → DB → list RoomDoc;
  (** [create_document(collection, data)], returning the new id *)
  create_document : string → Document → DB → DB * string;
  (** [db[collection].update_one({"code": code}, update)] *)
  update_one : string → string → Update → DB → DB
}.

Record CreateRoomRequest := mkCreateRoomRequest {
  cr_name : string;
  cr_avatar : option string
}.

Record JoinRoomRequest := mkJoinRoomRequest {
  jr_name : string;
  jr_avatar : option string;
  jr_code : string
}.


Inductive HTTPException :=
| mkHTTPException (status_code : nat) (detail : string).

Inductive response (A : Type) :=
| Reply (a : A)
| Abort (e : HTTPException).
Arguments Reply {A} a.
Arguments Abort {A} e.

Definition ROOMS_COLLECTION : string := "gameroom".
Definition PLAYERS_COLLECTION : string := "player".

(** [string.ascii_uppercase + string.digits] *)
Definition chars : list ascii :=
  list_ascii_of_string "ABCDEFGHIJKLMNOPQRSTUVWXYZ0123456789".

(** [gen_code]: one character of [chars] per draw of [random.choice]. *)
Definition gen_code (draws : list nat) : string :=
  string_of_list_ascii
    ((λ d, nth (d mod length chars) chars "A"%char) <$> draws).

Section Http.
Context {DB : Type} `{!Database DB}.

(** The directory side of the process: the database, the codes the
    rooms collection has been asked for so far (latest last), and the
    draws [random.choice] will return. *)
Record Store := mkStore {
  db : DB;
  looked_up : list string;
  random : list nat
}.

Definition H (A : Type) : Type := Store → response A * Store.

#[global] Instance H_ret : MRet H := λ A a s, (Reply a, s).
#[global] Instance H_bind : MBind H := λ A B f m s,
  match m s with
  | (Reply a, s') => f a s'
  | (Abort e, s') => (Abort e, s')
  end.

Definition raise {A} (e : HTTPException) : H A := λ s, (Abort e, s).

(** [get_room_by_code] *)
Definition get_room_by_code (code : string) : H (option RoomDoc) := λ s,
  let rooms := get_documents ROOMS_COLLECTION code 1 (db s) in
  (Reply (head rooms), mkStore (db s) (looked_up s ++ [code]) (random s)).

Definition insert_document (collection : string) (d : Document) : H string := λ s,
  let '(db', id) := create_document collection d (db s) in
  (Reply id, mkStore db' (looked_up s) (random s)).

Definition update_room (code : string) (u : Update) : H unit := λ s,
  (Reply tt, mkStore (update_one ROOMS_COLLECTION code u (db s)) (looked_up s) (random s)).

(** [gen_code()] with the default [length = 6]. *)
Definition fresh_code : H string := λ s,
  (Reply (gen_code (take 6 (random s ++ replicate 6 0))),
   mkStore (db s) (looked_up s) (drop 6 (random s))).

(** [while get_room_by_code(code) is not None and tries < 5]; [left] is [5 - tries]. *)
Fixpoint retry_code (left : nat) (code : string) : H string :=
  room ← get_room_by_code code;
  match room, left with
  | Some _, S left' => code' ← fresh_code; retry_code left' code'
  | _, _ => mret code
  end.

(** [create_room] *)
Definition create_room (payload : CreateRoomRequest) : H (string * string * string) :=
  player_id ← insert_document PLAYERS_COLLECTION
                (PlayerDocument (mkPlayerDoc (cr_name payload) (cr_avatar payload)));
  code0 ← fresh_code;
  code ← retry_code 5 code0;
  insert_document ROOMS_COLLECTION
    (RoomDocument (mkRoomDoc code player_id "waiting" [player_id]));;
  mret (code, player_id, "waiting"%string).

(** [join_room] *)
Definition join_room (payload : JoinRoomRequest) : H (string * string) :=
  room ← get_room_by_code (upper (jr_code payload));
  match room with
  | None => raise (mkHTTPException 404 "Room not found")
  | Some room =>
      if decide (status room = "active"%string)
      then raise (mkHTTPException 400 "Game already started")
      else
        player_id ← insert_document PLAYERS_COLLECTION
                      (PlayerDocument (mkPlayerDoc (jr_name payload) (jr_avatar payload)));
        update_room (code room) (AddToSetPlayers player_id);;
        mret (code room, player_id)
  end.




End Http.

Arguments Store DB : clear implicits.
Arguments H DB A : clear implicits.

(** A directory held in memory, to run the endpoints: the room documents in
    insertion order and the number of documents created. *)
Record MemDb := mkMemDb {
  rooms : list RoomDoc;
  created : nat
}.

Definition apply_update (u : Update) (r : RoomDoc) : RoomDoc :=
  match u with
  | AddToSetPlayers p =>
      mkRoomDoc (code r) (host_id r) (status r)
        (if decide (p ∈ players r) then players r else players r ++ [p])
  | SetStatus s => mkRoomDoc (code r) (host_id r) s (players r)
  end.

Fixpoint update_first (c : string) (u : Update) (l : list RoomDoc) : list RoomDoc :=
  match l with
  | [] => []
  | r :: l' => if decide (code r = c) then apply_update u r :: l'
               else r :: update_first c u l'
  end.

#[global] Instance MemDb_database : Database MemDb := {
  get_documents _ c limit d := take limit (filter (λ r, code r = c) (rooms d));
  create_document _ doc d :=
    (mkMemDb (match doc with
              | RoomDocument r => rooms d ++ [r]
              | PlayerDocument _ => rooms d
              end) (S (created d)),
     String (ascii_of_nat (48 + created d mod 10)) EmptyString);
  update_one _ c u d := mkMemDb (update_first c u (rooms d)) (created d)
}.

(** ** Interleaved execution

    [connect], [disconnect] and [broadcast] run on one event loop: a task
    runs alone between two [await]s, and other tasks run while it is
    suspended. [broadcast] suspends inside its loop, in
    [await ws.send_json(message)], holding an iterator over the list object
    bound to the room. The registry therefore maps a room to a list
    {i object}: [connect] and [disconnect] change that object in place, also
    while a suspended [broadcast] iterates over it, and [broadcast] binds
    the room to the fresh list [living] when its loop ends. *)

Module Async.

(** Address of a list object. *)
Abbreviation loc := nat.

(** A [broadcast] suspended in [await ws.send_json(message)]: the iterator
    is [(t_list, t_index)], [t_index] being the position read next. *)
Record Task := mkTask {
  t_room : string;
  t_message : Message;
  t_list : loc;
  t_index : nat;
  t_ws : WebSocket;
  t_living : list WebSocket
}.

(** What the event loop runs next. *)
Inductive event :=
| Connect (room : string) (ws : WebSocket)
  (** [connect] from the return of [accept] to its end *)
| Disconnect (room : string) (ws : WebSocket)
  (** [disconnect] *)
| Broadcast (t : nat) (room : string) (message : Message)
  (** task [t] calls [broadcast] and runs to its first [await] *)
| Resume (t : nat).
  (** the pending send of task [t] completes and the task runs to its
      next [await], or to the end of [broadcast] *)

Section Loop.
Context {Link : Type} `{!Transport Link}.

Record State := mkState {
  heap : list (list WebSocket);
  registry : gmap string loc;
  tasks : gmap nat Task;
  wire : Link;
  delivered : list (WebSocket * Message)
}.

Definition deref (h : list (list WebSocket)) (ℓ : loc) : list WebSocket :=
  default [] (h !! ℓ).

(** The list a room is bound to, if any. *)
Definition live (s : State) (room : string) : option (list WebSocket) :=
  ℓ ← registry s !! room; heap s !! ℓ.

(** [next(iterator)], then either suspend in the send to the session
    read, or leave the loop and run [self.active[room] = living]. *)
Definition advance (t : nat) (room : string) (message : Message)
    (ℓ : loc) (i : nat) (living : list WebSocket) (k : Link)
    (d : list (WebSocket * Message)) (s : State) : State :=
  match deref (heap s) ℓ !! i with
  | Some ws =>
      mkState (heap s) (registry s)
        (<[t := mkTask room message ℓ (S i) ws living]> (tasks s)) k d
  | None =>
      mkState (heap s ++ [living])
        (<[room := length (heap s)]> (registry s))
        (delete t (tasks s)) k d
  end.

Definition step (e : event) (s : State) : State :=
  match e with
  | Connect room ws =>
      match ws_accept ws (wire s) with
      | (k, Raise _) =>
          mkState (heap s) (registry s) (tasks s) k (delivered s)
      | (k, Ok _) =>
          match registry s !! room with
          | Some ℓ =>
              mkState (<[ℓ := deref (heap s) ℓ ++ [ws]]> (heap s))
                (registry s) (tasks s) k (delivered s)
          | None =>
              mkState (heap s ++ [[ws]])
                (<[room := length (heap s)]> (registry s))
                (tasks s) k (delivered s)
          end
      end
  | Disconnect room ws =>
      match registry s !! room with
      | Some ℓ =>
          if decide (ws ∈ deref (heap s) ℓ) then
            let l' := list_remove ws (deref (heap s) ℓ) in
            mkState (<[ℓ := l']> (heap s))
              (match l' with
               | [] => delete room (registry s)
               | _ => registry s
               end)
              (tasks s) (wire s) (delivered s)
          else s
      | None => s
      end
  | Broadcast t room message =>
      match tasks s !! t, registry s !! room with
      | None, Some ℓ => advance t room message ℓ 0 [] (wire s) (delivered s) s
      | _, _ => s
      end
  | Resume t =>
      match tasks s !! t with
      | Some T =>
          match ws_send_json (t_ws T) (t_message T) (wire s) with
          | (k, Ok _) =>
              advance t (t_room T) (t_message T) (t_list T) (t_index T)
                (t_living T ++ [t_ws T]) k
                (delivered s ++ [(t_ws T, t_message T)]) s
          | (k, Raise _) =>
              advance t (t_room T) (t_message T) (t_list T) (t_index T)
                (t_living T) k (delivered s) s
          end
      | None => s
      end
  end.

(** The events of a schedule, in order. *)
Definition run (evs : list event) (s : State) : State :=
  foldl (λ s e, step e s) s evs.

(** The state of a fresh process. *)
Definition init (k : Link) : State := mkState [] ∅ ∅ k [].

(** A schedule that neither unregisters a session from [room] nor starts
    a broadcast to [room]. *)
Definition undisturbed (room : string) (evs : list event) : bool :=
  forallb (λ e, match e with
                | Disconnect r _ | Broadcast _ r _ => bool_decide (r ≠ room)
                | _ => true
                end) evs.

(** The sequential view of a state: each room with the contents of the
    list it is bound to. *)
Definition view (s : State) : World Link :=
  mkWorld (omap (λ ℓ, heap s !! ℓ) (registry s)) (wire s) (delivered s).

(** The registry binds rooms to allocated, pairwise distinct lists. *)
Definition wf (s : State) : Prop :=
  (∀ r ℓ, registry s !! r = Some ℓ → ℓ < length (heap s)) ∧
  (∀ r1 r2 ℓ, registry s !! r1 = Some ℓ → registry s !! r2 = Some ℓ → r1 = r2).

(** A set of link states the link never leaves, whatever is accepted
    or sent. *)
Definition link_invariant (Q : Link → Prop) : Prop :=
  ∀ k, Q k → (∀ ws, Q (ws_accept ws k).1) ∧ (∀ ws m, Q (ws_send_json ws m k).1).

(** Within [Q], the handshake of [x] succeeds. *)
Definition always_accepted (Q : Link → Prop) (x : WebSocket) : Prop :=
  ∀ k, Q k → (ws_accept x k).2 = Ok tt.

(** Within [Q], no send to [x] raises. *)
Definition never_fails (Q : Link → Prop) (x : WebSocket) : Prop :=
  ∀ m k, Q k → (ws_send_json x m k).2 = Ok tt.

(** A broadcast to [room] in flight can only be task [t]; it iterates over
    the list [room] is bound to, waits for the send to the session it read
    last, and has kept every session read before that one on which sends
    never raise. *)
Definition lone_sweep (Q : Link → Prop) (t : nat) (room : string) (s : State) : Prop :=
  ∀ t' T, tasks s !! t' = Some T → t_room T = room →
    t' = t ∧ registry s !! room = Some (t_list T) ∧
    ∃ i, t_index T = S i ∧ deref (heap s) (t_list T) !! i = Some (t_ws T) ∧
      ∀ p y, p < i → deref (heap s) (t_list T) !! p = Some y →
             never_fails Q y → y ∈ t_living T.

(** [x] is in the list [room] is bound to. *)
Definition present (x : WebSocket) (room : string) (s : State) : Prop :=
  x ∈ default [] (live s room).

End Loop.

Arguments State Link : clear implicits.

End Async.

(** ** Sample data *)

Definition room_AB12C9 : string := "AB12C9".
Definition room_ZZ9999 : string := "ZZ9999".
Definition room_A : string := "A".
Definition room_B : string := "B".
Definition chat_hi : Message := "hi".
Definition chat_yo : Message := "yo".

(** A directory without rooms. *)
Definition no_rooms : Store MemDb := mkStore (mkMemDb [] 0) [] [].

(** A directory holding the waiting room [AB12C9]. *)
Definition one_room : Store MemDb :=
  mkStore (mkMemDb [mkRoomDoc room_AB12C9 "7" "waiting" ["7"%string]] 8) [] [].

(** ** Generated codes

    [candidate rnd k] is the code [create_room] generates in its [k]-th
    call of [gen_code] (counted from 0) when [random.choice] returns the
    draws [rnd]. *)
Definition candidate (rnd : list nat) (k : nat) : string :=
  gen_code (take 6 (drop (6 * k) rnd ++ replicate 6 0)).


(** ** Events and rooms *)

(** Whether an event acts on [room]: a registration, an unregistration or
    a broadcast names its room; the completion of a send belongs to the room
    of the broadcast it resumes. *)
Definition acts_on {Link : Type} (room : string) (s : Async.State Link)
    (e : Async.event) : bool :=
  match e with
  | Async.Connect r _ | Async.Disconnect r _ | Async.Broadcast _ r _ =>
      bool_decide (r = room)
  | Async.Resume t =>
      match Async.tasks s !! t with
      | Some T => bool_decide (Async.t_room T = room)
      | None => false
      end
  end.

(** Every session a broadcast in flight has kept so far has been sent the
    message of that broadcast. *)
Definition kept_were_sent {Link : Type} (s : Async.State Link) : Prop :=
  ∀ t T, Async.tasks s !! t = Some T →
    ∀ y, y ∈ Async.t_living T → (y, Async.t_message T) ∈ Async.delivered s.

(** ** The diagnostic endpoint

    [test_database] fills a reply step by step inside two nested [try]
    blocks. The texts it writes are kept apart as constructors; an error
    message is the list of the characters of [str(e)]. The handle [db] is
    outside the repository: reading [db.name] finds the attribute, finds none
    ([hasattr] is false), or raises; [list_collection_names()] returns the
    names or raises. *)

Inductive attribute :=
| NoAttribute
| Attribute (v : string)
| AttributeRaises (msg : list ascii).

Record DbHandle := mkDbHandle {
  handle_name : attribute;
  list_collection_names : list string + list ascii
}.

Inductive database_text :=
| NotAvailable                                (* "❌ Not Available" *)
| Available                                   (* "✅ Available" *)
| ConnectedAndWorking                         (* "✅ Connected & Working" *)
| ConnectedButError (msg : list ascii)        (* "⚠️  Connected but Error: ..." *)
| AvailableButNotInitialized                  (* "⚠️  Available but not initialized" *)
| ErrorText (msg : list ascii).               (* "❌ Error: ..." *)

Inductive url_text :=
| UrlSet                                      (* "✅ Set" *)
| UrlNotSet.                                  (* "❌ Not Set" *)

Inductive name_text :=
| NameOf (v : string)                         (* db.name *)
| NameConnected.                              (* "✅ Connected" *)

Record Diagnosis := mkDiagnosis {
  backend_running : bool;                     (* "backend": "✅ Running" *)
  database : database_text;
  database_url : option url_text;
  database_name : option name_text;
  connected : bool;                           (* "Connected" / "Not Connected" *)
  collections : list string
}.

(** [test_database]; [url] is [os.getenv("DATABASE_URL")]. *)
Definition test_database (db_handle : option DbHandle) (url : option string)
  : Diagnosis :=
  let response := mkDiagnosis true NotAvailable None None false [] in
  match db_handle with
  | Some h =>
      let response :=
        mkDiagnosis (backend_running response) Available
          (Some (match url with
                 | Some (String _ _) => UrlSet
                 | _ => UrlNotSet
                 end))
          (database_name response) (connected response) (collections response) in
      match handle_name h with
      | AttributeRaises msg =>
          mkDiagnosis (backend_running response) (ErrorText (take 50 msg))
            (database_url response) (database_name response)
            (connected response) (collections response)
      | found =>
          let response :=
            mkDiagnosis (backend_running response) (database response)
              (database_url response)
              (Some (match found with
                     | Attribute v => NameOf v
                     | _ => NameConnected
                     end))
              true (collections response) in
          match list_collection_names h with
          | inl names =>
              mkDiagnosis (backend_running response) ConnectedAndWorking
                (database_url response) (database_name response)
                (connected response) (take 10 names)
          | inr msg =>
              mkDiagnosis (backend_running response)
                (ConnectedButError (take 50 msg))
                (database_url response) (database_name response)
                (connected response) (collections response)
          end
      end
  | None =>
      mkDiagnosis (backend_running response) AvailableButNotInitialized
        (database_url response) (database_name response)
        (connected response) (collections response)
  end.

(** * Properties of the sequential operations *)

Section Sequential.
Context {Link : Type} `{!Transport Link}.
Implicit Types (w : World Link) (l living : list WebSocket) (outs : list bool).

Lemma kept_nil outs : kept [] outs = [].
Proof. by destruct outs. Qed.

Lemma kept_cons_true ws l outs : kept (ws :: l) (true :: outs) = ws :: kept l outs.
Proof. unfold kept. cbn [zip_with]. by rewrite filter_cons_True. Qed.

Lemma kept_cons_false ws l outs : kept (ws :: l) (false :: outs) = kept l outs.
Proof. unfold kept. cbn [zip_with]. by rewrite filter_cons_False. Qed.


(** The loop with its [try]/[except] does what the link's answers say. *)
Lemma broadcast_loop_spec message l living w :
  broadcast_loop message l living w =
    (Ok (living ++ kept l (send_outcomes message l (link w))),
     mkWorld (active w) (link_after message l (link w))
       (sent w ++ ((λ ws, (ws, message)) <$> kept l (send_outcomes message l (link w))))).
Proof.
  revert living w. induction l as [|ws l IH]; intros living w; simpl.
  - rewrite kept_nil, !app_nil_r. by destruct w.
  - unfold mbind, M_bind, try_except, send_json at 1.
    destruct (ws_send_json ws message (link w)) as [k [[]|e]] eqn:E; simpl.
    + rewrite IH. simpl. rewrite kept_cons_true. simpl.
      by rewrite <- !app_assoc.
    + rewrite IH. simpl. by rewrite kept_cons_false.
Qed.

Lemma broadcast_present room message w l :
  active w !! room = Some l →
  broadcast room message w =
    (Ok tt,
     mkWorld (<[room := kept l (send_outcomes message l (link w))]> (active w))
       (link_after message l (link w))
       (sent w ++ ((λ ws, (ws, message)) <$> kept l (send_outcomes message l (link w))))).
Proof.
  intros Hl. unfold broadcast, mbind, M_bind, get_active at 1. simpl.
  rewrite Hl. by rewrite broadcast_loop_spec.
Qed.

Lemma broadcast_absent room message w :
  active w !! room = None → broadcast room message w = (Ok tt, w).
Proof.
  intros Hl. unfold broadcast, mbind, M_bind, get_active at 1. simpl. by rewrite Hl.
Qed.


Lemma elem_of_kept l outs x :
  x ∈ kept l outs ↔ ∃ i, l !! i = Some x ∧ outs !! i = Some true.
Proof.
  revert outs. induction l as [|ws l IH]; intros outs.
  - rewrite kept_nil. split; [by intros ?%elem_of_nil | by intros (i & ? & _)].
  - destruct outs as [|[] outs].
    + unfold kept. simpl. split; [by intros ?%elem_of_nil | by intros (i & _ & ?)].
    + rewrite kept_cons_true, elem_of_cons, IH. split.
      * intros [->|(i & ? & ?)]; [by exists 0 | by exists (S i)].
      * intros ([|i] & ? & ?); simplify_eq/=; [by left | right; by exists i].
    + rewrite kept_cons_false, IH. split.
      * intros (i & ? & ?). by exists (S i).
      * intros ([|i] & ? & ?); simplify_eq/=. by exists i.
Qed.

Lemma kept_sublist l outs : kept l outs `sublist_of` l.
Proof.
  revert outs. induction l as [|ws l IH]; intros outs.
  - by rewrite kept_nil.
  - destruct outs as [|[] outs].
    + unfold kept. simpl. apply sublist_nil_l.
    + rewrite kept_cons_true. by apply sublist_skip.
    + rewrite kept_cons_false. by apply sublist_cons.
Qed.

Lemma broadcast_ok room message w : (broadcast room message w).1 = Ok tt.
Proof.
  destruct (active w !! room) as [l|] eqn:E.
  - by rewrite (broadcast_present _ _ _ _ E).
  - by rewrite (broadcast_absent _ _ _ E).
Qed.

Lemma connect_unfold room ws w :
  connect room ws w =
    match ws_accept ws (link w) with
    | (k, Ok _) =>
        (Ok tt, mkWorld (<[room := default [] (active w !! room) ++ [ws]]> (active w))
                  k (sent w))
    | (k, Raise e) => (Raise e, mkWorld (active w) k (sent w))
    end.
Proof.
  unfold connect, mbind, M_bind, accept.
  by destruct (ws_accept ws (link w)) as [k [[]|e]].
Qed.

Lemma disconnect_unfold room ws w :
  disconnect room ws w =
    (Ok tt,
     match active w !! room with
     | Some l =>
         if decide (ws ∈ l) then
           match list_remove ws l with
           | [] => mkWorld (delete room (active w)) (link w) (sent w)
           | l' => mkWorld (<[room := l']> (active w)) (link w) (sent w)
           end
         else w
     | None => w
     end).
Proof.
  unfold disconnect, mbind, M_bind, get_active. simpl.
  destruct (active w !! room) as [l|]; [|done].
  destruct (decide (ws ∈ l)); [|done].
  by destruct (list_remove ws l).
Qed.

Lemma list_remove_absent x l : x ∉ l → list_remove x l = l.
Proof.
  induction l as [|y l IH]; [done|]. intros [? ?]%not_elem_of_cons. simpl.
  destruct (decide (x = y)); [done|]. by rewrite IH.
Qed.

Lemma length_list_remove x l : x ∈ l → S (length (list_remove x l)) = length l.
Proof.
  induction l as [|y l IH]; [by intros ?%elem_of_nil|]. simpl.
  destruct (decide (x = y)); [done|].
  intros [?|?]%elem_of_cons; [done|]. simpl. by rewrite IH.
Qed.

Lemma list_remove_app_present x l l2 :
  x ∈ l → list_remove x (l ++ l2) = list_remove x l ++ l2.
Proof.
  induction l as [|y l IH]; [by intros ?%elem_of_nil|]. simpl.
  destruct (decide (x = y)); [done|].
  intros [?|?]%elem_of_cons; [done|]. simpl. by rewrite IH.
Qed.

Lemma list_remove_app_absent x l l2 :
  x ∉ l → list_remove x (l ++ l2) = l ++ list_remove x l2.
Proof.
  induction l as [|y l IH]; [done|]. intros [? ?]%not_elem_of_cons. simpl.
  destruct (decide (x = y)); [done|]. by rewrite IH.
Qed.

Lemma list_remove_single x l : occurrences x l ≤ 1 → x ∉ list_remove x l.
Proof.
  unfold occurrences. induction l as [|y l IH]; simpl; [intros _; apply not_elem_of_nil|].
  destruct (decide (x = y)) as [->|Hne].
  - rewrite filter_cons_True by done. simpl. intros Hle Hin.
    assert (length (filter (λ z, z = y) l) = 0) as Hz by lia.
    apply length_zero_iff_nil in Hz.
    assert (y ∈ filter (λ z, z = y) l) as Hy by (by apply list_elem_of_filter).
    rewrite Hz in Hy. by apply elem_of_nil in Hy.
  - rewrite filter_cons_False by done. intros Hle.
    apply not_elem_of_cons. split; [done | by apply IH].
Qed.

End Sequential.

(** * The registry under sequential use *)

Section Registry.
Context {Link : Type} `{!Transport Link}.
Implicit Types (w : World Link) (l living : list WebSocket) (outs : list bool).



(** C6. Broadcasting to a room with no live session, absent from the
    registry or bound to an empty list, returns normally, sends nothing and
    leaves the registry as it was. *)
Theorem broadcast_to_empty_room_is_noop room message w :
  default [] (active w !! room) = [] →
  broadcast room message w = (Ok tt, w).
Proof.
  destruct (active w !! room) as [l|] eqn:E; simpl.
  - intros ->. rewrite (broadcast_present _ _ _ _ E). simpl.
    rewrite kept_nil, app_nil_r, insert_id by done. by destruct w.
  - intros _. by apply broadcast_absent.
Qed.

(** C9. A broadcast to room [A] sends only to the sessions of [A]'s list,
    so a session registered in another room and not in [A] receives
    nothing, and the entry of every other room is unchanged. *)
Theorem broadcast_stays_in_its_room A message w :
  let w' := (broadcast A message w).2 in
  (∀ B, B ≠ A → active w' !! B = active w !! B) ∧
  ∃ d, sent w' = sent w ++ d ∧
    (∀ ws m, (ws, m) ∈ d → m = message ∧ ws ∈ default [] (active w !! A)) ∧
    (∀ B ws m, B ≠ A → ws ∈ default [] (active w !! B) →
       ws ∉ default [] (active w !! A) → (ws, m) ∉ d).
Proof.
  intros w'. subst w'.
  destruct (active w !! A) as [l|] eqn:E.
  - rewrite (broadcast_present _ _ _ _ E). simpl.
    assert (∀ ws m, (ws, m) ∈ ((λ x, (x, message)) <$>
              kept l (send_outcomes message l (link w))) → m = message ∧ ws ∈ l) as Hd.
    { intros ws m (x & [= -> ->] & Hx)%list_elem_of_fmap. split; [done|].
      apply elem_of_kept in Hx as (i & Hi & _). by eapply list_elem_of_lookup_2. }
    split; [intros B HB; by apply lookup_insert_ne|].
    eexists. split; [done|]. split; [done|].
    intros B ws m _ _ Hn Hin. by apply Hd in Hin as [_ ?].
  - rewrite (broadcast_absent _ _ _ E). simpl. split; [done|].
    exists []. split; [by rewrite app_nil_r|].
    split; [by intros ?? ?%elem_of_nil | by intros ????? ? ?%elem_of_nil].
Qed.

(** C10. [connect] appends without looking for the session: after two
    successful connects of the same websocket to a room it occurs twice more
    in the room's list, and one [disconnect] then removes a single
    occurrence, so the session is still in the list broadcasts go through. *)
Theorem connect_does_not_deduplicate room ws w :
  let w1 := (connect room ws w).2 in
  let w2 := (connect room ws w1).2 in
  let w3 := (disconnect room ws w2).2 in
  let l := default [] (active w !! room) in
  (connect room ws w).1 = Ok tt →
  (connect room ws w1).1 = Ok tt →
  active w2 !! room = Some (l ++ [ws; ws]) ∧
  occurrences ws (l ++ [ws; ws]) = occurrences ws l + 2 ∧
  ∃ l3, active w3 !! room = Some l3 ∧ ws ∈ l3 ∧
        l3 = list_remove ws (l ++ [ws; ws]) ∧ length l3 = length l + 1.
Proof.
  intros w1 w2 w3 l. subst w3 w2 w1.
  rewrite (connect_unfold room ws w).
  destruct (ws_accept ws (link w)) as [k [[]|e]] eqn:E1; simpl; [|done]. intros _.
  rewrite connect_unfold. simpl.
  destruct (ws_accept ws k) as [k' [[]|e]] eqn:E2; simpl; [|done]. intros _.
  rewrite !lookup_insert_eq. simpl. fold l. rewrite insert_insert_eq, <- app_assoc. simpl.
  split; [done|].
  split.
  { unfold occurrences. rewrite filter_app, length_app.
    rewrite !filter_cons_True by done. done. }
  rewrite disconnect_unfold. simpl. rewrite lookup_insert_eq.
  assert (ws ∈ l ++ [ws; ws]) as Hin by (apply elem_of_app; right; by left).
  rewrite decide_True by done.
  assert (ws ∈ list_remove ws (l ++ [ws; ws])) as Hin'.
  { destruct (decide (ws ∈ l)) as [Hl|Hl].
    - rewrite list_remove_app_present by done. apply elem_of_app; right; by left.
    - rewrite list_remove_app_absent by done. simpl. rewrite decide_True by done.
      apply elem_of_app; right; by left. }
  pose proof (length_list_remove _ _ Hin) as Hlen. rewrite length_app in Hlen. simpl in Hlen.
  destruct (list_remove ws (l ++ [ws; ws])) as [|y l3] eqn:El3.
  { by apply elem_of_nil in Hin'. }
  simpl. rewrite insert_insert_eq, lookup_insert_eq.
  eexists. split; [done|]. split; [done|]. split; [done|]. simpl in *. lia.
Qed.

(** The entries of a registry are all non-empty. *)
Lemma connect_keeps_entries_nonempty room ws w :
  map_Forall (λ _ l, l ≠ []) (active w) →
  map_Forall (λ _ l, l ≠ []) (active (connect room ws w).2).
Proof.
  intros Hne. rewrite connect_unfold.
  destruct (ws_accept ws (link w)) as [k [[]|e]]; simpl; [|done].
  apply map_Forall_insert_2; [|done]. by destruct (default [] (active w !! room)).
Qed.

Lemma disconnect_keeps_entries_nonempty room ws w :
  map_Forall (λ _ l, l ≠ []) (active w) →
  map_Forall (λ _ l, l ≠ []) (active (disconnect room ws w).2).
Proof.
  intros Hne. rewrite disconnect_unfold. simpl.
  destruct (active w !! room) as [l|] eqn:E; [|done].
  destruct (decide (ws ∈ l)); [|done].
  destruct (list_remove ws l) as [|y l'] eqn:El; simpl.
  - by apply map_Forall_delete.
  - by apply map_Forall_insert_2.
Qed.


End Registry.

(** * Room codes, admission and the directory *)








Section Admission.
Context {Link : Type} `{!Transport Link}.
Implicit Types (w : World Link).

Lemma ws_room_unfold ws code n w :
  ws_room ws code n w =
    match connect (upper code) ws w with
    | (Ok _, w1) =>
        match receive_loop n (upper code) ws w1 with
        | (Ok p, w2) => (Ok p, w2)
        | (Raise _, w2) => (Ok Returned, (disconnect (upper code) ws w2).2)
        end
    | (Raise e, w1) => (Raise e, w1)
    end.
Proof.
  unfold ws_room, mbind at 1, M_bind at 1.
  destruct (connect (upper code) ws w) as [[[]|e] w1]; [|done].
  unfold try_except. destruct (receive_loop n (upper code) ws w1) as [[p|e] w2]; [done|].
  destruct e; unfold mbind, M_bind; by rewrite disconnect_unfold.
Qed.



Lemma disconnect_other_rooms room ws w r :
  r ≠ room → active (disconnect room ws w).2 !! r = active w !! r.
Proof.
  intros Hr. rewrite disconnect_unfold. simpl.
  destruct (active w !! room) as [l|]; [|done].
  destruct (decide (ws ∈ l)); [|done].
  destruct (list_remove ws l); simpl; [by rewrite lookup_delete_ne | by rewrite lookup_insert_ne].
Qed.



(** C4, as the code has it. [ws_room] consults no directory: a connection
    attempt whose handshake succeeds is registered under the uppercased code
    before its first frame is read, whatever that code is; a handshake that
    fails raises out of [ws_room] and leaves the registry as it was. *)
Theorem ws_room_registers_every_accepted_socket ws code w :
  match ws_accept ws (link w) with
  | (_, Ok _) =>
      (ws_room ws code 0 w).1 = Ok Receiving ∧
      active (ws_room ws code 0 w).2 =
        <[upper code := default [] (active w !! upper code) ++ [ws]]> (active w)
  | (_, Raise e) =>
      ∀ n, (ws_room ws code n w).1 = Raise e ∧
           active (ws_room ws code n w).2 = active w
  end.
Proof.
  destruct (ws_accept ws (link w)) as [k [[]|e]] eqn:E.
  - rewrite ws_room_unfold, connect_unfold, E. by simpl.
  - intros n. rewrite ws_room_unfold, connect_unfold, E. by simpl.
Qed.

End Admission.

Section Lookups.
Context {DB : Type} `{!Database DB}.
Implicit Types (s : Store DB).

Lemma get_room_by_code_looked_up c s :
  looked_up (get_room_by_code c s).2 = looked_up s ++ [c].
Proof. done. Qed.











End Lookups.


(** * The registry under interleaved use *)

Section Interleaving.
Import Async.
Context {Link : Type} `{!Transport Link}.
Implicit Types (s : State Link) (evs : list event).

Lemma run_app evs1 evs2 s : run (evs1 ++ evs2) s = run evs2 (run evs1 s).
Proof. unfold run. apply foldl_app. Qed.

Lemma run_cons e evs s : run (e :: evs) s = run evs (step e s).
Proof. done. Qed.

Lemma deref_app_l h h' ℓ : ℓ < length h → deref (h ++ h') ℓ = deref h ℓ.
Proof. intros Hl. unfold deref. by rewrite lookup_app_l. Qed.

Lemma deref_insert_eq h ℓ l : ℓ < length h → deref (<[ℓ := l]> h) ℓ = l.
Proof. intros Hl. unfold deref. by rewrite list_lookup_insert_eq. Qed.

Lemma deref_insert_ne h ℓ ℓ' l : ℓ ≠ ℓ' → deref (<[ℓ := l]> h) ℓ' = deref h ℓ'.
Proof. intros Hl. unfold deref. by rewrite list_lookup_insert_ne. Qed.

Lemma deref_alloc h l : deref (h ++ [l]) (length h) = l.
Proof. unfold deref. by rewrite list_lookup_middle. Qed.

(** Allocating a list and binding a room to it keeps the registry well formed. *)
Lemma wf_alloc s room l ts (k : Link) d :
  wf s →
  wf (mkState (heap s ++ [l]) (<[room := length (heap s)]> (registry s)) ts k d).
Proof.
  intros [Hb Hi]. split; simpl.
  - intros r ℓ. rewrite length_app. simpl. rewrite lookup_insert.
    case_decide; [intros [= <-]; lia|]. intros ?%Hb. lia.
  - intros r1 r2 ℓ. rewrite !lookup_insert.
    repeat case_decide; subst; try done.
    + intros [= <-] ?%Hb. lia.
    + intros ?%Hb [= <-]. lia.
    + apply Hi.
Qed.

Lemma wf_advance t room message ℓ i living (k : Link) d s :
  wf s → wf (advance t room message ℓ i living k d s).
Proof.
  intros Hwf. unfold advance. destruct (deref (heap s) ℓ !! i).
  - destruct Hwf as [Hb Hi]. by split.
  - by apply wf_alloc.
Qed.

Lemma wf_step e s : wf s → wf (step e s).
Proof.
  intros Hwf. destruct e as [room ws|room ws|t room message|t]; simpl.
  - destruct (ws_accept ws (wire s)) as [k [[]|e]].
    + destruct (registry s !! room) as [ℓ|] eqn:E.
      * destruct Hwf as [Hb Hi]. split; simpl; [|done].
        intros r ℓ' ?%Hb. by rewrite length_insert.
      * by apply wf_alloc.
    + destruct Hwf as [Hb Hi]. by split.
  - destruct (registry s !! room) as [ℓ|] eqn:E; [|done].
    destruct (decide (ws ∈ deref (heap s) ℓ)); [|done].
    destruct Hwf as [Hb Hi]. split; simpl.
    + intros r ℓ' Hr. rewrite length_insert. apply (Hb r).
      destruct (list_remove ws (deref (heap s) ℓ)); [|done].
      by apply lookup_delete_Some in Hr as [_ ?].
    + intros r1 r2 ℓ' H1 H2. apply (Hi r1 r2 ℓ');
        destruct (list_remove ws (deref (heap s) ℓ)); try done.
      * by apply lookup_delete_Some in H1 as [_ ?].
      * by apply lookup_delete_Some in H2 as [_ ?].
  - destruct (tasks s !! t); [done|].
    destruct (registry s !! room); [|done]. by apply wf_advance.
  - destruct (tasks s !! t) as [T|]; [|done].
    destruct (ws_send_json (t_ws T) (t_message T) (wire s)) as [k [[]|e]];
      by apply wf_advance.
Qed.

Lemma wf_run evs s : wf s → wf (run evs s).
Proof.
  revert s. induction evs as [|e evs IH]; intros s Hwf; [done|].
  rewrite run_cons. by apply IH, wf_step.
Qed.

Lemma wf_init (k : Link) : wf (init k).
Proof. split; simpl; intros *; by rewrite lookup_empty. Qed.

Lemma live_alloc s room l ts (k : Link) d :
  live (mkState (heap s ++ [l]) (<[room := length (heap s)]> (registry s)) ts k d) room
  = Some l.
Proof. unfold live. simpl. rewrite lookup_insert_eq. simpl. apply list_lookup_middle. done. Qed.

Lemma live_alloc_ne s room r l ts (k : Link) d :
  wf s → r ≠ room →
  live (mkState (heap s ++ [l]) (<[room := length (heap s)]> (registry s)) ts k d) r
  = live s r.
Proof.
  intros [Hb _] Hr. unfold live. simpl. rewrite lookup_insert_ne by congruence.
  destruct (registry s !! r) as [ℓ|] eqn:E; simpl; [|done].
  apply lookup_app_l. by apply (Hb r).
Qed.

Lemma live_deref s room ℓ :
  wf s → registry s !! room = Some ℓ → live s room = Some (deref (heap s) ℓ).
Proof.
  intros [Hb _] Hr. unfold live, deref. rewrite Hr. simpl.
  destruct (lookup_lt_is_Some_2 (heap s) ℓ (Hb _ _ Hr)) as [l Hl]. by rewrite Hl.
Qed.

Lemma run_replicate_S n e s :
  run (replicate (S n) e) s = run (replicate n e) (step e s).
Proof. done. Qed.

Lemma run_nil s : run [] s = s.
Proof. done. Qed.

(** A suspended broadcast that is resumed until it ends, nothing else
    running in between, does what the sequential loop does on the rest of
    the list. *)
Lemma resume_alone t rest pre s T :
  tasks s !! t = Some T →
  deref (heap s) (t_list T) = pre ++ t_ws T :: rest →
  t_index T = S (length pre) →
  let l := t_ws T :: rest in
  let outs := send_outcomes (t_message T) l (wire s) in
  let s' := run (replicate (S (length rest)) (Resume t)) s in
  heap s' = heap s ++ [t_living T ++ kept l outs] ∧
  registry s' = <[t_room T := length (heap s)]> (registry s) ∧
  wire s' = link_after (t_message T) l (wire s) ∧
  delivered s' = delivered s ++ ((λ ws, (ws, t_message T)) <$> kept l outs) ∧
  tasks s' !! t = None.
Proof.
  revert pre s T. induction rest as [|ws' rest IH]; intros pre s T ET EL Ei.
  - cbn zeta. rewrite run_replicate_S. cbn [length replicate]. rewrite run_nil.
    cbn [step send_outcomes link_after]. rewrite ET.
    assert (deref (heap s) (t_list T) !! t_index T = None) as Hnone.
    { apply lookup_ge_None. rewrite EL, Ei, length_app. simpl. lia. }
    destruct (ws_send_json (t_ws T) (t_message T) (wire s)) as [k [[]|e]];
      unfold advance; rewrite Hnone; cbn [took fst];
      rewrite ?kept_cons_true, ?kept_cons_false, kept_nil; simpl;
      by rewrite ?app_nil_r, lookup_delete_eq.
  - cbn zeta. rewrite run_replicate_S. cbn [length].
    cbn [step send_outcomes link_after]. rewrite ET.
    assert (deref (heap s) (t_list T) !! t_index T = Some ws') as Hnext.
    { rewrite EL, Ei. rewrite lookup_app_r by lia.
      by replace (S (length pre) - length pre) with 1 by lia. }
    destruct (ws_send_json (t_ws T) (t_message T) (wire s)) as [k [[]|e]];
      unfold advance; rewrite Hnext; cbn [took fst];
      rewrite ?kept_cons_true, ?kept_cons_false;
      match goal with
      | |- context [run _ ?s1] =>
          edestruct (IH (pre ++ [t_ws T]) s1) as (Hh & Hr & Hw & Hd & Ht);
            [apply lookup_insert_eq
            |cbn [t_list t_ws heap]; rewrite EL, <- app_assoc; reflexivity
            |cbn [t_index]; rewrite length_app; simpl; lia
            |cbn [t_room t_message t_list t_index t_ws t_living
                  heap registry tasks wire delivered] in Hh, Hr, Hw, Hd, Ht;
             rewrite Hh, Hr, Hw, Hd, Ht]
      end.
    + split_and!; try done; by rewrite <- ?app_assoc.
    + done.
Qed.

(** X16. From a well-formed state where task [t] is not running, a broadcast
    that runs alone to its end does, on the sequential view of the state,
    what the sequential [broadcast] does. *)
Lemma broadcast_alone t room message s :
  wf s → tasks s !! t = None →
  let n := length (default [] (live s room)) in
  view (run (Broadcast t room message :: replicate n (Resume t)) s)
  = (broadcast room message (view s)).2.
Proof.
  intros [Hb Hi] ET. cbn zeta. rewrite run_cons. cbn [step]. rewrite ET.
  unfold live. destruct (registry s !! room) as [ℓ|] eqn:ER; simpl.
  - destruct (lookup_lt_is_Some_2 (heap s) ℓ (Hb _ _ ER)) as [l El].
    rewrite El. simpl.
    assert (active (view s) !! room = Some l) as Hv.
    { simpl. by rewrite lookup_omap, ER. }
    rewrite (broadcast_present _ _ _ _ Hv). simpl.
    assert (∀ L' ts (k : Link) d,
      view (mkState (heap s ++ [L']) (<[room := length (heap s)]> (registry s)) ts k d)
      = mkWorld (<[room := L']> (omap (λ ℓ, heap s !! ℓ) (registry s))) k d) as Hview.
    { intros L' ts k d. unfold view. simpl. f_equal. apply map_eq. intros r.
      rewrite lookup_omap. destruct (decide (r = room)) as [->|Hr].
      - rewrite !lookup_insert_eq. simpl. by apply list_lookup_middle.
      - rewrite !lookup_insert_ne by done. rewrite lookup_omap.
        destruct (registry s !! r) as [ℓ'|] eqn:Er; simpl; [|done].
        apply lookup_app_l. by eapply Hb. }
    unfold advance, deref. rewrite El. simpl. destruct l as [|ws rest].
    + cbn [length replicate lookup list_lookup]. rewrite run_nil, kept_nil, Hview.
      simpl. by rewrite app_nil_r.
    + cbn [lookup list_lookup length].
      match goal with
      | |- context [run _ ?s1] =>
          edestruct (resume_alone t rest [] s1) as (Hh & Hr & Hw & Hd & Ht);
            [apply lookup_insert_eq
            |cbn [t_list t_ws heap]; unfold deref; rewrite El; reflexivity
            |done|]
      end.
      cbn [t_room t_message t_list t_index t_ws t_living
           heap registry tasks wire delivered] in Hh, Hr, Hw, Hd, Ht.
      match goal with
      | |- view ?s2 = _ =>
          transitivity (view (mkState (heap s2) (registry s2) (tasks s2)
                                (wire s2) (delivered s2))); [done|]
      end.
      rewrite Hh, Hr, Hw, Hd. by rewrite Hview.
  - rewrite ?run_nil.
    assert (active (view s) !! room = None) as Hv.
    { simpl. by rewrite lookup_omap, ER. }
    by rewrite (broadcast_absent _ _ _ Hv).
Qed.

Section Sweep.
Variables (Q : Link → Prop) (t : nat) (room : string).

(** Steps that keep the tasks, the binding of [room] and the list it is
    bound to keep the invariant. *)
Lemma lone_sweep_frame s s' :
  tasks s' = tasks s →
  registry s' !! room = registry s !! room →
  (∀ ℓ, registry s !! room = Some ℓ → deref (heap s') ℓ = deref (heap s) ℓ) →
  lone_sweep Q t room s → lone_sweep Q t room s'.
Proof.
  intros Ht Hr Hd Hs t' T HT Hroom. rewrite Ht in HT.
  destruct (Hs t' T HT Hroom) as (-> & Hreg & i & Hi & Hcur & Hliv).
  split; [done|]. split; [by rewrite Hr|].
  exists i. rewrite (Hd _ Hreg). done.
Qed.

(** A task that is not a broadcast to [room] moves on. *)
Lemma lone_sweep_advance_other t' r message ℓ i living (k : Link) d s :
  wf s → r ≠ room →
  (∀ T, tasks s !! t' = Some T → t_room T ≠ room) →
  lone_sweep Q t room s →
  lone_sweep Q t room (advance t' r message ℓ i living k d s).
Proof.
  intros [Hb Hi] Hr Hnot Hs. unfold advance.
  destruct (deref (heap s) ℓ !! i) as [ws|].
  - intros t'' T. simpl. rewrite lookup_insert. case_decide as Ht; subst.
    + intros [= <-]. by simpl.
    + intros HT Hroom. by apply Hs.
  - intros t'' T. simpl. rewrite lookup_delete. case_decide as Ht; [done|].
    intros HT Hroom.
    destruct (Hs t'' T HT Hroom) as (-> & Hreg & j & Hj & Hcur & Hliv).
    split; [done|]. split; [by rewrite lookup_insert_ne|].
    exists j. by rewrite deref_app_l by (by eapply Hb).
Qed.

(** The broadcast to [room] moves on, having kept what it had to. *)
Lemma lone_sweep_advance_room T i living (k : Link) d s :
  tasks s !! t = Some T → t_room T = room →
  registry s !! room = Some (t_list T) →
  (∀ p y, p < i → deref (heap s) (t_list T) !! p = Some y →
          never_fails Q y → y ∈ living) →
  lone_sweep Q t room s →
  lone_sweep Q t room
    (advance t (t_room T) (t_message T) (t_list T) i living k d s).
Proof.
  intros ET Hroom Hreg Hl Hs. unfold advance.
  destruct (deref (heap s) (t_list T) !! i) as [ws'|] eqn:EN.
  - intros t' T'. simpl. rewrite lookup_insert. case_decide as Ht; subst.
    + intros [= <-] _. simpl. split; [done|]. split; [done|]. by exists i.
    + intros HT Hr. by destruct (Hs t' T' HT Hr) as (? & _).
  - intros t' T'. simpl. rewrite lookup_delete. case_decide as Ht; [done|].
    intros HT Hr. by destruct (Hs t' T' HT Hr) as (? & _).
Qed.

Lemma lone_sweep_broadcast message s :
  wf s → map_Forall (λ _ T, t_room T ≠ room) (tasks s) →
  lone_sweep Q t room (step (Broadcast t room message) s).
Proof.
  intros Hwf Hno.
  assert (lone_sweep Q t room s) as Hs.
  { intros t' T HT Hroom. by destruct (Hno t' T HT). }
  simpl. destruct (tasks s !! t) as [T|] eqn:ET; [done|].
  destruct (registry s !! room) as [ℓ|] eqn:ER; [|done].
  unfold advance. destruct (deref (heap s) ℓ !! 0) as [ws|] eqn:E0.
  - intros t' T'. simpl. rewrite lookup_insert. case_decide as Ht; subst.
    + intros [= <-] _. simpl. split; [done|]. split; [done|].
      exists 0. split; [done|]. split; [done|]. lia.
    + intros HT Hr. by destruct (Hno t' T' HT).
  - intros t' T'. simpl. rewrite lookup_delete. case_decide as Ht; [done|].
    intros HT Hr. by destruct (Hno t' T' HT).
Qed.

Lemma lone_sweep_connect r y s :
  wf s → lone_sweep Q t room s → lone_sweep Q t room (step (Connect r y) s).
Proof.
  intros [Hb Hi] Hs. simpl.
  destruct (ws_accept y (wire s)) as [k [[]|e]]; [|by apply (lone_sweep_frame s)].
  destruct (registry s !! r) as [ℓ'|] eqn:ER.
  - destruct (decide (r = room)) as [->|Hr].
    + intros t' T HT Hroom. simpl in *.
      destruct (Hs t' T HT Hroom) as (-> & Hreg & i & Hidx & Hcur & Hliv).
      assert (ℓ' = t_list T) as -> by congruence.
      split; [done|]. split; [done|]. exists i. split; [done|].
      rewrite deref_insert_eq by (by eapply Hb).
      split; [by apply lookup_app_l_Some|].
      intros p z Hp Hz. apply (Hliv p z Hp).
      rewrite lookup_app_l in Hz; [done|].
      apply lookup_lt_Some in Hcur. lia.
    + apply (lone_sweep_frame s); [done..| |done]. simpl.
      intros ℓ Hℓ. apply deref_insert_ne. intros ->. by apply Hr, (Hi r room ℓ).
  - destruct (decide (r = room)) as [->|Hr].
    + intros t' T HT Hroom. simpl in *.
      destruct (Hs t' T HT Hroom) as (_ & Hreg & _). congruence.
    + apply (lone_sweep_frame s); [done| |simpl|done].
      * simpl. by rewrite lookup_insert_ne.
      * intros ℓ Hℓ. apply deref_app_l. by eapply Hb.
Qed.

Lemma lone_sweep_disconnect r y s :
  wf s → r ≠ room →
  lone_sweep Q t room s → lone_sweep Q t room (step (Disconnect r y) s).
Proof.
  intros [Hb Hi] Hr Hs. simpl.
  destruct (registry s !! r) as [ℓ'|] eqn:ER; [|done].
  destruct (decide (y ∈ deref (heap s) ℓ')); [|done].
  apply (lone_sweep_frame s); [done| |simpl|done].
  - simpl. destruct (list_remove y (deref (heap s) ℓ')); [|done].
    by rewrite lookup_delete_ne.
  - intros ℓ Hℓ. apply deref_insert_ne. intros ->. by apply Hr, (Hi r room ℓ).
Qed.

Lemma lone_sweep_broadcast_other t' r message s :
  wf s → r ≠ room →
  lone_sweep Q t room s → lone_sweep Q t room (step (Broadcast t' r message) s).
Proof.
  intros Hwf Hr Hs. simpl.
  destruct (tasks s !! t') as [T|] eqn:ET; [done|].
  destruct (registry s !! r) as [ℓ|]; [|done].
  apply lone_sweep_advance_other; [done..| |done]. intros T. by rewrite ET.
Qed.

Lemma lone_sweep_resume t' s :
  wf s → Q (wire s) →
  lone_sweep Q t room s → lone_sweep Q t room (step (Resume t') s).
Proof.
  intros Hwf HQ Hs. simpl.
  destruct (tasks s !! t') as [T|] eqn:ET; [|done].
  destruct (decide (t_room T = room)) as [Hroom|Hroom].
  - destruct (Hs t' T ET Hroom) as (-> & Hreg & i & Hidx & Hcur & Hliv).
    destruct (ws_send_json (t_ws T) (t_message T) (wire s)) as [k [[]|e]] eqn:ES;
      apply lone_sweep_advance_room; try done;
      rewrite Hidx; intros p z Hp Hz Hgood.
    + destruct (decide (p = i)) as [->|Hpi].
      * rewrite Hcur in Hz. injection Hz as <-. apply elem_of_app. right. by left.
      * apply elem_of_app. left. apply (Hliv p z); [lia|done..].
    + destruct (decide (p = i)) as [->|Hpi].
      * rewrite Hcur in Hz. injection Hz as <-.
        specialize (Hgood (t_message T) (wire s) HQ). by rewrite ES in Hgood.
      * apply (Hliv p z); [lia|done..].
  - destruct (ws_send_json (t_ws T) (t_message T) (wire s)) as [k [[]|e]];
      (apply lone_sweep_advance_other; [done..| |done]);
      intros T'; rewrite ET; by intros [= <-].
Qed.

Lemma lone_sweep_step e s :
  undisturbed room [e] = true → wf s → Q (wire s) →
  lone_sweep Q t room s → lone_sweep Q t room (step e s).
Proof.
  intros He Hwf HQ Hs. simpl in He. rewrite andb_true_r in He.
  destruct e as [r y|r y|t' r message|t'].
  - by apply lone_sweep_connect.
  - apply bool_decide_eq_true in He. by apply lone_sweep_disconnect.
  - apply bool_decide_eq_true in He. by apply lone_sweep_broadcast_other.
  - by apply lone_sweep_resume.
Qed.

(** *** The joiner stays in the list *)

Lemma present_frame x s s' :
  registry s' !! room = registry s !! room →
  (∀ ℓ, registry s !! room = Some ℓ → heap s' !! ℓ = heap s !! ℓ) →
  present x room s → present x room s'.
Proof.
  intros Hr Hh. unfold present, live. rewrite Hr.
  destruct (registry s !! room) as [ℓ|]; simpl; [|done]. by rewrite (Hh ℓ).
Qed.

Lemma present_advance_other x t' r message ℓ i living (k : Link) d s :
  wf s → r ≠ room →
  present x room s → present x room (advance t' r message ℓ i living k d s).
Proof.
  intros Hwf Hr. unfold advance, present.
  destruct (deref (heap s) ℓ !! i); [done|]. by rewrite live_alloc_ne.
Qed.

Lemma present_join x s :
  wf s → Q (wire s) → always_accepted Q x → present x room (step (Connect room x) s).
Proof.
  intros Hwf HQ Hacc. unfold present. simpl.
  specialize (Hacc (wire s) HQ).
  destruct (ws_accept x (wire s)) as [k [[]|e]]; [|done].
  destruct (registry s !! room) as [ℓ|] eqn:ER.
  - unfold live. simpl. rewrite ER. simpl.
    destruct Hwf as [Hb _]. rewrite list_lookup_insert_eq by (by eapply Hb).
    simpl. apply elem_of_app. right. by left.
  - rewrite live_alloc. simpl. by left.
Qed.

Lemma present_connect x r y s :
  wf s → present x room s → present x room (step (Connect r y) s).
Proof.
  intros Hwf. unfold present. simpl.
  destruct (ws_accept y (wire s)) as [k [[]|e]]; [|done].
  destruct (registry s !! r) as [ℓ|] eqn:ER.
  - unfold live. simpl.
    destruct (registry s !! room) as [ℓ'|] eqn:ER'; simpl; [|done].
    destruct Hwf as [Hb Hi].
    destruct (decide (ℓ = ℓ')) as [->|Hne].
    + rewrite list_lookup_insert_eq by (by eapply Hb). simpl.
      unfold deref. intros Hx. apply elem_of_app. by left.
    + by rewrite list_lookup_insert_ne.
  - destruct (decide (room = r)) as [->|Hne].
    + unfold live at 1. rewrite ER. simpl. by intros ?%elem_of_nil.
    + by rewrite live_alloc_ne.
Qed.

Lemma present_disconnect x r y s :
  wf s → r ≠ room → present x room s → present x room (step (Disconnect r y) s).
Proof.
  intros [Hb Hi] Hr. simpl.
  destruct (registry s !! r) as [ℓ'|] eqn:ER; [|done].
  destruct (decide (y ∈ deref (heap s) ℓ')); [|done].
  apply present_frame; simpl.
  - destruct (list_remove y (deref (heap s) ℓ')); [|done].
    by rewrite lookup_delete_ne.
  - intros ℓ Hℓ. apply list_lookup_insert_ne. intros ->. by apply Hr, (Hi r room ℓ).
Qed.

Lemma present_broadcast_other x t' r message s :
  wf s → r ≠ room →
  present x room s → present x room (step (Broadcast t' r message) s).
Proof.
  intros Hwf Hr Hx. simpl.
  destruct (tasks s !! t'); [done|]. destruct (registry s !! r); [|done].
  by apply present_advance_other.
Qed.

Lemma present_resume x t' s :
  wf s → Q (wire s) → lone_sweep Q t room s → never_fails Q x →
  present x room s → present x room (step (Resume t') s).
Proof.
  intros Hwf HQ Hs Hgood Hx. simpl.
  destruct (tasks s !! t') as [T|] eqn:ET; [|done].
  destruct (decide (t_room T = room)) as [Hroom|Hroom]; cycle 1.
  { destruct (ws_send_json (t_ws T) (t_message T) (wire s)) as [k [[]|e]];
      by apply present_advance_other. }
  destruct (Hs t' T ET Hroom) as (-> & Hreg & i & Hidx & Hcur & Hliv).
  unfold present in Hx. rewrite (live_deref _ _ _ Hwf Hreg) in Hx. simpl in Hx.
  apply list_elem_of_lookup in Hx as [p Hp].
  assert (∀ living k d,
    (p ≤ i → x ∈ living) →
    present x room
      (advance t (t_room T) (t_message T) (t_list T) (t_index T) living k d s))
    as Hadv.
  { intros living k d Hl. unfold advance, present. rewrite Hidx.
    destruct (deref (heap s) (t_list T) !! S i) as [ws'|] eqn:EN.
    - unfold live. simpl. rewrite Hreg. simpl.
      fold (deref (heap s) (t_list T)). by eapply list_elem_of_lookup_2.
    - rewrite Hroom, live_alloc. simpl. apply Hl.
      apply lookup_ge_None in EN. apply lookup_lt_Some in Hp. lia. }
  destruct (ws_send_json (t_ws T) (t_message T) (wire s)) as [k [[]|e]] eqn:ES;
    apply Hadv; intros Hpi.
  - destruct (decide (p = i)) as [->|Hne].
    + rewrite Hcur in Hp. injection Hp as <-. apply elem_of_app. right. by left.
    + apply elem_of_app. left. apply (Hliv p x); [lia|done..].
  - destruct (decide (p = i)) as [->|Hne].
    + rewrite Hcur in Hp. injection Hp as <-.
      specialize (Hgood (t_message T) (wire s) HQ). by rewrite ES in Hgood.
    + apply (Hliv p x); [lia|done..].
Qed.

Lemma present_step x e s :
  undisturbed room [e] = true → wf s → Q (wire s) →
  lone_sweep Q t room s → never_fails Q x →
  present x room s → present x room (step e s).
Proof.
  intros He Hwf HQ Hs Hgood Hx. simpl in He. rewrite andb_true_r in He.
  destruct e as [r y|r y|t' r message|t'].
  - by apply present_connect.
  - apply bool_decide_eq_true in He. by apply present_disconnect.
  - apply bool_decide_eq_true in He. by apply present_broadcast_other.
  - by apply present_resume.
Qed.

Lemma wire_step e s : link_invariant Q → Q (wire s) → Q (wire (step e s)).
Proof.
  intros HI HQ. destruct (HI _ HQ) as [Ha Hs].
  destruct e as [r ws|r ws|t' r message|t']; simpl.
  - specialize (Ha ws). destruct (ws_accept ws (wire s)) as [k [[]|e]]; [|done].
    by destruct (registry s !! r).
  - destruct (registry s !! r) as [ℓ|]; [|done].
    by destruct (decide (ws ∈ deref (heap s) ℓ)).
  - destruct (tasks s !! t'); [done|]. destruct (registry s !! r) as [ℓ|]; [|done].
    unfold advance. by destruct (deref (heap s) ℓ !! 0).
  - destruct (tasks s !! t') as [T|]; [|done].
    specialize (Hs (t_ws T) (t_message T)).
    destruct (ws_send_json (t_ws T) (t_message T) (wire s)) as [k [[]|e]];
      unfold advance; by destruct (deref (heap s) (t_list T) !! t_index T).
Qed.

Lemma wire_run evs s : link_invariant Q → Q (wire s) → Q (wire (run evs s)).
Proof.
  intros HI. revert s. induction evs as [|e evs IH]; intros s HQ; [done|].
  rewrite run_cons. by apply IH, wire_step.
Qed.

Lemma lone_sweep_run evs s :
  link_invariant Q → undisturbed room evs = true → wf s → Q (wire s) →
  lone_sweep Q t room s → lone_sweep Q t room (run evs s).
Proof.
  intros HI. revert s. induction evs as [|e evs IH]; intros s Hj Hwf HQ Hs; [done|].
  rewrite run_cons. simpl in Hj. apply andb_prop in Hj as [He Hj].
  apply IH; [done|by apply wf_step|by apply wire_step|].
  apply lone_sweep_step; [|done..]. simpl. by rewrite He.
Qed.

(** Once in the room's list, or registered later in the schedule, a
    session whose sends never raise is in the list at the end. *)
Lemma present_run x evs s :
  link_invariant Q → always_accepted Q x → never_fails Q x →
  undisturbed room evs = true → wf s → Q (wire s) → lone_sweep Q t room s →
  present x room s ∨ Connect room x ∈ evs →
  present x room (run evs s).
Proof.
  intros HI Hacc Hgood. revert s.
  induction evs as [|e evs IH]; intros s Hj Hwf HQ Hs Hx.
  - destruct Hx as [?|Hx]; [done|]. by apply elem_of_nil in Hx.
  - rewrite run_cons. simpl in Hj. apply andb_prop in Hj as [He Hj].
    apply IH; [done|by apply wf_step|by apply wire_step|..].
    + apply lone_sweep_step; [|done..]. simpl. by rewrite He.
    + destruct Hx as [Hx|Hx].
      * left. apply present_step; [|done..]. simpl. by rewrite He.
      * apply elem_of_cons in Hx as [<-|Hx]; [|by right].
        left. by apply present_join.
Qed.

(** A broadcast in flight ends once enough of its sends have completed. *)
Lemma resume_completes m s :
  (∀ T, tasks s !! t = Some T →
        length (deref (heap s) (t_list T)) ≤ t_index T + m) →
  tasks (run (replicate (S m) (Resume t)) s) !! t = None.
Proof.
  revert s. induction m as [|m IH]; intros s Hb.
  - rewrite run_replicate_S. cbn [replicate]. rewrite run_nil. simpl.
    destruct (tasks s !! t) as [T|] eqn:ET; [|done].
    specialize (Hb T eq_refl).
    assert (deref (heap s) (t_list T) !! t_index T = None) as Hnone
      by (apply lookup_ge_None; lia).
    destruct (ws_send_json (t_ws T) (t_message T) (wire s)) as [k [[]|e]];
      unfold advance; rewrite Hnone; simpl; by rewrite lookup_delete_eq.
  - rewrite run_replicate_S. apply IH. intros T'. simpl.
    destruct (tasks s !! t) as [T|] eqn:ET; [|by rewrite ET].
    specialize (Hb T eq_refl).
    destruct (ws_send_json (t_ws T) (t_message T) (wire s)) as [k [[]|e]];
      unfold advance;
      (destruct (deref (heap s) (t_list T) !! t_index T) as [ws'|] eqn:EN; simpl;
       [rewrite lookup_insert_eq; intros [= <-]; simpl; lia
       |by rewrite lookup_delete_eq]).
Qed.

Lemma undisturbed_resumes n : undisturbed room (replicate n (Resume t)) = true.
Proof. induction n as [|n IH]; [done|]. simpl. apply IH. Qed.

End Sweep.

(** C8, as the code has it. [broadcast] takes no lock: it iterates over
    the room's list in place and rebinds the room when its loop ends. From
    any reachable state with no broadcast to the room in flight, when one
    broadcast to the room runs and, until it ends, no other broadcast to
    that room starts and no session unregisters from it, a session
    registered to the room in the meantime, whose handshake and sends
    succeed, is in the room's list from then on, and still is once the
    broadcast has ended, which it does after finitely many further
    completions of its sends. *)
Theorem joiner_is_kept_by_a_single_broadcast
    (Q : Link → Prop) (k : Link) evs0 t room message evs x :
  link_invariant Q → Q k →
  always_accepted Q x → never_fails Q x →
  map_Forall (λ _ T, t_room T ≠ room) (tasks (run evs0 (init k))) →
  undisturbed room evs = true →
  Connect room x ∈ evs →
  let s := run (evs0 ++ Broadcast t room message :: evs) (init k) in
  present x room s ∧
  ∃ n, let s' := run (replicate n (Resume t)) s in
       tasks s' !! t = None ∧ present x room s'.
Proof.
  intros HI HQ Hacc Hgood Hidle Hj Hx s.
  subst s. rewrite run_app, run_cons.
  set (s0 := run evs0 (init k)) in *.
  assert (wf s0) as Hwf0 by apply wf_run, wf_init.
  assert (Q (wire s0)) as HQ0 by (by apply wire_run).
  set (s1 := step (Broadcast t room message) s0).
  assert (wf s1) as Hwf1 by (by apply wf_step).
  assert (Q (wire s1)) as HQ1 by (by apply wire_step).
  assert (lone_sweep Q t room s1) as Hs1 by (by apply lone_sweep_broadcast).
  set (s := run evs s1).
  assert (wf s) as Hwf by (by apply wf_run).
  assert (Q (wire s)) as HQs by (by apply wire_run).
  assert (lone_sweep Q t room s) as Hs by (by apply lone_sweep_run).
  assert (present x room s) as Hp by (apply (present_run Q t); auto).
  split; [done|].
  exists (S (match tasks s !! t with
             | Some T => length (deref (heap s) (t_list T))
             | None => 0
             end)).
  split.
  - apply resume_completes. intros T ->. lia.
  - apply (present_run Q t); auto. apply undisturbed_resumes.
Qed.

End Interleaving.

(** * The claims on concrete runs *)



(** C2 on the code: a broadcast on which every send fails binds the room to
    the empty list, where [disconnect] of the same last session deletes the
    entry. *)
Theorem broadcast_leaves_an_empty_entry :
  let w := world0 {[room_ZZ9999 := [1]]} (quiet [1]) in
  map_Forall (λ _ l, l ≠ []) (active w) ∧
  active (broadcast room_ZZ9999 chat_hi w).2 !! room_ZZ9999 = Some [] ∧
  active (disconnect room_ZZ9999 1 w).2 !! room_ZZ9999 = None.
Proof.
  intros w. split; [|split; vm_compute; reflexivity].
  subst w. simpl. by apply map_Forall_singleton.
Qed.

(** The directory resolves no code, and [ws_room] registers the socket. *)
Lemma ws_room_registers_an_unresolved_code :
  (get_room_by_code (upper "nope1") no_rooms).1 = Reply None ∧
  active (ws_room 1 "nope1" 0 (world0 ∅ (quiet []))).2 !! upper "nope1" = Some [1].
Proof. split; vm_compute; reflexivity. Qed.



(** No entry for the room, and one bound to the empty list. *)
Lemma broadcast_to_empty_room_is_noop_witness :
  broadcast room_ZZ9999 chat_hi (world0 ∅ (quiet [])) = (Ok tt, world0 ∅ (quiet [])) ∧
  broadcast room_ZZ9999 chat_hi (world0 {[room_ZZ9999 := []]} (quiet []))
  = (Ok tt, world0 {[room_ZZ9999 := []]} (quiet [])).
Proof.
  split.
  - apply (broadcast_to_empty_room_is_noop room_ZZ9999 chat_hi (world0 ∅ (quiet []))).
    vm_compute. reflexivity.
  - apply (broadcast_to_empty_room_is_noop room_ZZ9999 chat_hi
             (world0 {[room_ZZ9999 := []]} (quiet []))).
    vm_compute. reflexivity.
Defined.

(** Room B's entry is as before a broadcast to room A. *)
Lemma broadcast_stays_in_its_room_witness :
  let w := world0 {[room_A := [1]; room_B := [2]]} (quiet []) in
  active (broadcast room_A chat_hi w).2 !! room_B = Some [2].
Proof.
  intros w.
  refine (eq_trans (proj1 (broadcast_stays_in_its_room room_A chat_hi w) room_B _) _).
  - vm_compute. discriminate.
  - vm_compute. reflexivity.
Defined.

Lemma connect_does_not_deduplicate_witness :
  let w := world0 {[room_A := [4]]} (quiet []) in
  active (connect room_A 5 (connect room_A 5 w).2).2 !! room_A = Some [4; 5; 5].
Proof.
  intros w.
  refine (eq_trans (proj1 (connect_does_not_deduplicate room_A 5 w _ _)) _);
    vm_compute; reflexivity.
Defined.


Import Async.

(** Two runs on a link that never fails. In the first, session 3 registers
    while broadcast 1 is in flight and is gone when it ends. In the second,
    session 1 unregisters while broadcast 0 waits for the send to it and is
    back in the list when it ends, session 2 having been dropped instead. *)
Lemma unlocked_broadcast_loses_joiner_and_revives_leaver :
  (let before := [Connect room_A 1; Connect room_A 2;
                  Broadcast 0 room_A chat_hi; Broadcast 1 room_A chat_yo;
                  Resume 0; Resume 0] in
   let after := [Resume 1; Resume 1] in
   let s := run (before ++ Connect room_A 3 :: after) (init (quiet [])) in
   is_Some (tasks (run before (init (quiet []))) !! 1) ∧
   live (run (before ++ [Connect room_A 3]) (init (quiet []))) room_A = Some [1; 2; 3] ∧
   tasks s = ∅ ∧ live s room_A = Some [1; 2] ∧ ¬ present 3 room_A s) ∧
  (let before := [Connect room_A 1; Connect room_A 2; Broadcast 0 room_A chat_hi] in
   let s := run (before ++ [Disconnect room_A 1; Resume 0]) (init (quiet [])) in
   is_Some (tasks (run before (init (quiet []))) !! 0) ∧
   live (run (before ++ [Disconnect room_A 1]) (init (quiet []))) room_A = Some [2] ∧
   tasks s = ∅ ∧ live s room_A = Some [1] ∧ present 1 room_A s).
Proof.
  split; intros; split_and!; try (vm_compute; reflexivity).
  - by eexists.
  - unfold present. vm_compute. intros H. by repeat (inversion H as [|? ? ? H']; subst; clear H; rename H' into H).
  - by eexists.
  - unfold present. vm_compute. by left.
Qed.

(** Session 3 registers while the broadcast waits for its first send and
    is in the list when the broadcast has ended. *)
Lemma joiner_is_kept_by_a_single_broadcast_witness :
  let s := run ([Connect room_A 1; Connect room_A 2]
                ++ Broadcast 0 room_A chat_hi
                   :: [Connect room_A 3; Resume 0; Resume 0; Resume 0])
             (init (quiet [])) in
  tasks s = ∅ ∧ present 3 room_A s.
Proof.
  intros s. split; [vm_compute; reflexivity|].
  refine (proj1 (joiner_is_kept_by_a_single_broadcast (λ k, k = quiet []) (quiet [])
            [Connect room_A 1; Connect room_A 2] 0 room_A chat_hi
            [Connect room_A 3; Resume 0; Resume 0; Resume 0] 3 _ eq_refl _ _ _ eq_refl _)).
  - intros k ->. split; reflexivity.
  - intros k ->. reflexivity.
  - intros m k ->. reflexivity.
  - intros i T. vm_compute. discriminate.
  - by left.
Defined.

(** * More on the registry operations *)

Section RegistryMore.
Context {Link : Type} `{!Transport Link}.
Implicit Types (w : World Link) (l : list WebSocket) (outs : list bool).

Lemma list_remove_sublist x l : list_remove x l `sublist_of` l.
Proof.
  induction l as [|y l IH]; simpl; [done|].
  destruct (decide (x = y)); [by apply sublist_cons | by apply sublist_skip].
Qed.

Lemma occurrences_cons x y l :
  occurrences x (y :: l) = (if decide (y = x) then 1 else 0) + occurrences x l.
Proof.
  unfold occurrences. destruct (decide (y = x)).
  - by rewrite filter_cons_True.
  - by rewrite filter_cons_False.
Qed.

Lemma occurrences_app x l1 l2 :
  occurrences x (l1 ++ l2) = occurrences x l1 + occurrences x l2.
Proof. unfold occurrences. by rewrite filter_app, length_app. Qed.

Lemma occurrences_sublist x l1 l2 :
  l1 `sublist_of` l2 → occurrences x l1 ≤ occurrences x l2.
Proof.
  induction 1 as [|y l1 l2 _ IH|y l1 l2 _ IH]; [done|..];
    rewrite ?occurrences_cons; lia.
Qed.

Lemma occurrences_zero x l : x ∉ l → occurrences x l = 0.
Proof.
  induction l as [|y l IH]; [done|]. intros [? ?]%not_elem_of_cons.
  rewrite occurrences_cons, decide_False by done. by rewrite IH.
Qed.

Lemma occurrences_list_remove x l :
  x ∈ l → S (occurrences x (list_remove x l)) = occurrences x l.
Proof.
  induction l as [|y l IH]; [by intros ?%elem_of_nil|]. simpl.
  destruct (decide (x = y)) as [->|Hne].
  - intros _. by rewrite occurrences_cons, decide_True.
  - intros [?|Hin]%elem_of_cons; [done|].
    rewrite !occurrences_cons, decide_False by done. simpl. by apply IH.
Qed.

Lemma occurrences_list_remove_ne x y l :
  y ≠ x → occurrences y (list_remove x l) = occurrences y l.
Proof.
  intros Hne. induction l as [|z l IH]; [done|]. simpl.
  destruct (decide (x = z)) as [->|Hxz].
  - by rewrite occurrences_cons, decide_False.
  - by rewrite !occurrences_cons, IH.
Qed.

Lemma disconnect_list room ws w :
  default [] (active (disconnect room ws w).2 !! room)
  = list_remove ws (default [] (active w !! room)).
Proof.
  rewrite disconnect_unfold. simpl.
  destruct (active w !! room) as [l|] eqn:E; simpl; [|by rewrite E].
  destruct (decide (ws ∈ l)) as [Hin|Hin].
  - destruct (list_remove ws l) as [|y l'] eqn:El; simpl.
    + by rewrite lookup_delete_eq.
    + by rewrite lookup_insert_eq.
  - rewrite E. simpl. by rewrite list_remove_absent.
Qed.

(** X1. [disconnect] takes one occurrence of the session out of the room's
    list and nothing else: the other sessions of the room keep their number
    of occurrences and their order, and the other rooms their entries. *)
Theorem disconnect_removes_one_occurrence room ws w :
  let l := default [] (active w !! room) in
  let l' := default [] (active (disconnect room ws w).2 !! room) in
  (ws ∈ l → S (occurrences ws l') = occurrences ws l) ∧
  (∀ y, y ≠ ws → occurrences y l' = occurrences y l) ∧
  l' `sublist_of` l ∧
  (∀ r, r ≠ room → active (disconnect room ws w).2 !! r = active w !! r).
Proof.
  intros l l'. subst l l'. rewrite disconnect_list. split_and!.
  - apply occurrences_list_remove.
  - intros y Hy. by apply occurrences_list_remove_ne.
  - apply list_remove_sublist.
  - intros r Hr. by apply disconnect_other_rooms.
Qed.

(** X2. Registering a session that is not in the room and unregistering it
    again gives the registry back as it was, the entry created for a new room
    included (a room bound to an empty list apart, which [disconnect]
    deletes). *)
Theorem connect_then_disconnect_restores room ws w :
  ws ∉ default [] (active w !! room) →
  active w !! room ≠ Some [] →
  (connect room ws w).1 = Ok tt →
  active (disconnect room ws (connect room ws w).2).2 = active w.
Proof.
  intros Hnot Hne. rewrite connect_unfold.
  destruct (ws_accept ws (link w)) as [k [[]|e]]; simpl; [|done]. intros _.
  rewrite disconnect_unfold. simpl. rewrite lookup_insert_eq.
  rewrite decide_True by (apply elem_of_app; right; by left).
  rewrite list_remove_app_absent by done. simpl. rewrite decide_True by done.
  rewrite app_nil_r.
  destruct (active w !! room) as [[|y l]|] eqn:E; simpl.
  - done.
  - by rewrite insert_insert_eq, insert_id.
  - by rewrite delete_insert_eq, delete_id.
Qed.




(** X5. Lists without duplicates stay so: [disconnect] and [broadcast] keep
    every room's list duplicate-free, and so does [connect] for a session
    that is not yet in the room. *)
Theorem registry_stays_duplicate_free room ws message w :
  map_Forall (λ _ l, NoDup l) (active w) →
  (ws ∉ default [] (active w !! room) →
   map_Forall (λ _ l, NoDup l) (active (connect room ws w).2)) ∧
  map_Forall (λ _ l, NoDup l) (active (disconnect room ws w).2) ∧
  map_Forall (λ _ l, NoDup l) (active (broadcast room message w).2).
Proof.
  intros Hnd. split_and!.
  - intros Hnot. rewrite connect_unfold.
    destruct (ws_accept ws (link w)) as [k [[]|e]]; simpl; [|done].
    apply map_Forall_insert_2; [|done].
    apply NoDup_app. split_and!.
    + destruct (active w !! room) as [l|] eqn:E; simpl; [by apply (Hnd room)|].
      apply NoDup_nil_2.
    + intros x Hx ?%list_elem_of_singleton. by subst.
    + apply NoDup_singleton.
  - rewrite disconnect_unfold. simpl.
    destruct (active w !! room) as [l|] eqn:E; [|done].
    destruct (decide (ws ∈ l)); [|done].
    assert (NoDup (list_remove ws l)) as Hl.
    { eapply sublist_NoDup; [by apply (Hnd room)|apply list_remove_sublist]. }
    destruct (list_remove ws l); simpl.
    + by apply map_Forall_delete.
    + by apply map_Forall_insert_2.
  - destruct (active w !! room) as [l|] eqn:E.
    + rewrite (broadcast_present _ _ _ _ E). simpl.
      apply map_Forall_insert_2; [|done].
      eapply sublist_NoDup; [by apply (Hnd room)|apply kept_sublist].
    + by rewrite (broadcast_absent _ _ _ E).
Qed.

(** *** The life of one connection *)

Lemma broadcast_list_sublist room message w :
  default [] (active (broadcast room message w).2 !! room)
    `sublist_of` default [] (active w !! room).
Proof.
  destruct (active w !! room) as [l|] eqn:E.
  - rewrite (broadcast_present _ _ _ _ E). simpl. rewrite lookup_insert_eq. simpl.
    apply kept_sublist.
  - rewrite (broadcast_absent _ _ _ E). simpl. by rewrite E.
Qed.

(** While a connection reads and broadcasts, its room only loses sessions;
    the loop itself never returns: it is left by an exception. *)
Lemma receive_loop_shrinks n room ws w :
  default [] (active (receive_loop n room ws w).2 !! room)
    `sublist_of` default [] (active w !! room) ∧
  ∀ p, (receive_loop n room ws w).1 = Ok p → p = Receiving.
Proof.
  revert w. induction n as [|n IH]; intros w; simpl.
  - split; [done|]. by intros p [= <-].
  - unfold mbind at 1 3, M_bind at 1 3, receive_json at 1 2.
    destruct (ws_receive_json ws (link w)) as [k [data|e]]; simpl; [|done].
    unfold mbind, M_bind.
    pose proof (broadcast_ok room data (mkWorld (active w) k (sent w))) as Hok.
    pose proof (broadcast_list_sublist room data (mkWorld (active w) k (sent w))) as Hsub.
    destruct (broadcast room data (mkWorld (active w) k (sent w))) as [[[]|e] w1];
      simpl in *; [|done].
    destruct (IH w1) as [Hs Hp]. split; [by etrans|done].
Qed.

(** X6. Once its handshake has succeeded, [ws_room] never raises: whatever
    ends the receive loop is caught. When it returns, a socket that was not in
    the room before the call is not in it after: the connection leaves no
    registration behind. *)
Theorem ws_room_cleans_up ws code n w :
  (ws_accept ws (link w)).2 = Ok tt →
  (∃ p, (ws_room ws code n w).1 = Ok p) ∧
  (ws ∉ default [] (active w !! upper code) →
   (ws_room ws code n w).1 = Ok Returned →
   ws ∉ default [] (active (ws_room ws code n w).2 !! upper code)).
Proof.
  intros Hacc. rewrite ws_room_unfold, connect_unfold.
  destruct (ws_accept ws (link w)) as [k [[]|e]]; simpl in *; [|done].
  set (w1 := mkWorld _ k (sent w)).
  destruct (receive_loop_shrinks n (upper code) ws w1) as [Hsub Hp].
  destruct (receive_loop n (upper code) ws w1) as [[p|e] w2]; simpl in *.
  - split; [by eexists|]. intros _ [= ->]. by specialize (Hp _ eq_refl).
  - split; [by eexists|]. intros Hnot _.
    rewrite disconnect_list. apply list_remove_single.
    etrans; [by apply occurrences_sublist|].
    subst w1. simpl. rewrite lookup_insert_eq. simpl.
    rewrite occurrences_app, occurrences_zero by done.
    rewrite occurrences_cons, decide_True by done. done.
Qed.

End RegistryMore.

(** * More on the HTTP endpoints *)

Lemma length_string_of_list_ascii l :
  String.length (string_of_list_ascii l) = length l.
Proof. induction l as [|a l IH]; simpl; [done|]. by rewrite IH. Qed.

Lemma length_padded_draws (rnd : list nat) :
  length (take 6 (rnd ++ replicate 6 0)) = 6.
Proof. rewrite length_take, length_app, length_replicate. lia. Qed.

Lemma length_gen_code draws : String.length (gen_code draws) = length draws.
Proof. unfold gen_code. by rewrite length_string_of_list_ascii, length_fmap. Qed.

(** X8. [gen_code] returns one character per draw, each of them an uppercase
    letter or a digit; called without argument, as [create_room] does, it
    returns six of them. *)
Theorem gen_code_shape draws :
  String.length (gen_code draws) = length draws ∧
  Forall (λ c, c ∈ chars) (list_ascii_of_string (gen_code draws)) ∧
  ∀ rnd k, String.length (candidate rnd k) = 6.
Proof.
  split_and!.
  - apply length_gen_code.
  - unfold gen_code. rewrite list_ascii_of_string_of_list_ascii. apply Forall_fmap, Forall_forall.
    intros d _. unfold compose. rewrite nth_lookup.
    destruct (chars !! (d mod length chars)) as [c|] eqn:E; simpl.
    + by eapply list_elem_of_lookup_2.
    + apply lookup_ge_None in E.
      pose proof (Nat.mod_upper_bound d (length chars)). simpl in *. lia.
  - intros rnd k. unfold candidate.
    by rewrite length_gen_code, length_padded_draws.
Qed.

Section HttpMore.
Context {DB : Type} `{!Database DB}.
Implicit Types (s : Store DB).

Lemma head_None_nil {A} (l : list A) : head l = None → l = [].
Proof. by destruct l. Qed.

Lemma retry_code_unfold left c s :
  retry_code left c s =
    match head (get_documents ROOMS_COLLECTION c 1 (db s)), left with
    | Some _, S left' =>
        retry_code left' (gen_code (take 6 (random s ++ replicate 6 0)))
          (mkStore (db s) (looked_up s ++ [c]) (drop 6 (random s)))
    | _, _ => (Reply c, mkStore (db s) (looked_up s ++ [c]) (random s))
    end.
Proof.
  destruct left; cbn [retry_code]; unfold mbind, H_bind, get_room_by_code;
    by destruct (head _).
Qed.

(** The retry loop: it only reads the directory, asks it between once and
    [left + 1] times, returns the code it asked for last, and that code is
    free unless the loop has used up its tries. *)
Lemma retry_code_spec left c s :
  ∃ c' d,
    (retry_code left c s).1 = Reply c' ∧
    db (retry_code left c s).2 = db s ∧
    looked_up (retry_code left c s).2 = looked_up s ++ d ∧
    1 ≤ length d ≤ S left ∧ last d = Some c' ∧
    (length d ≤ left → get_documents ROOMS_COLLECTION c' 1 (db s) = []) ∧
    (String.length c = 6 → String.length c' = 6).
Proof.
  revert c s. induction left as [|left IH]; intros c s; rewrite retry_code_unfold.
  - exists c, [c]. destruct (head _); cbn [fst snd db looked_up length last];
      split_and!; try done; lia.
  - destruct (head _) as [room|] eqn:Eh.
    + set (s1 := mkStore (db s) (looked_up s ++ [c]) (drop 6 (random s))).
      destruct (IH (gen_code (take 6 (random s ++ replicate 6 0))) s1)
        as (c' & d & Hr & Hdb & Hl & Hlen & Hlast & Hfree & Hshape).
      exists c', (c :: d). rewrite Hr, Hdb, Hl. subst s1. cbn [db looked_up length].
      split_and!; try done.
      * by rewrite <- app_assoc.
      * lia.
      * lia.
      * destruct d; simpl in *; [lia|done].
      * intros ?. apply Hfree. lia.
      * intros _. apply Hshape.
        by rewrite length_gen_code, length_padded_draws.
    + exists c, [c]. cbn [fst snd db looked_up length last].
      split_and!; try done; try lia.
      intros _. by apply head_None_nil.
Qed.

Lemma create_room_unfold payload s :
  create_room payload s =
    let player := PlayerDocument (mkPlayerDoc (cr_name payload) (cr_avatar payload)) in
    let db1 := (create_document PLAYERS_COLLECTION player (db s)).1 in
    let pid := (create_document PLAYERS_COLLECTION player (db s)).2 in
    match retry_code 5 (gen_code (take 6 (random s ++ replicate 6 0)))
            (mkStore db1 (looked_up s) (drop 6 (random s))) with
    | (Reply c, s2) =>
        (Reply (c, pid, "waiting"%string),
         mkStore (create_document ROOMS_COLLECTION
                    (RoomDocument (mkRoomDoc c pid "waiting" [pid])) (db s2)).1
           (looked_up s2) (random s2))
    | (Abort e, s2) => (Abort e, s2)
    end.
Proof.
  unfold create_room, mbind, H_bind, insert_document, fresh_code.
  destruct (create_document PLAYERS_COLLECTION _ (db s)) as [db1 pid].
  cbn [fst snd db looked_up random].
  destruct (retry_code 5 _ _) as [[c|e] s2]; [|done]. by destruct (create_document _ _ _).
Qed.

(** X9. [create_room] never refuses. It creates the player, then the room with
    that player as host and only member and status "waiting", and replies with
    the code and player id it stored. It asks the directory between once and
    six times, the code it keeps is the last one asked for, a six-character
    code, and that code was free unless all six tries were used. *)
Theorem create_room_always_creates payload s :
  let player := PlayerDocument (mkPlayerDoc (cr_name payload) (cr_avatar payload)) in
  let db1 := (create_document PLAYERS_COLLECTION player (db s)).1 in
  let pid := (create_document PLAYERS_COLLECTION player (db s)).2 in
  ∃ c d,
    (create_room payload s).1 = Reply (c, pid, "waiting"%string) ∧
    db (create_room payload s).2
    = (create_document ROOMS_COLLECTION
         (RoomDocument (mkRoomDoc c pid "waiting" [pid])) db1).1 ∧
    looked_up (create_room payload s).2 = looked_up s ++ d ∧
    1 ≤ length d ≤ 6 ∧ last d = Some c ∧ String.length c = 6 ∧
    (length d < 6 → get_documents ROOMS_COLLECTION c 1 db1 = []).
Proof.
  intros player db1 pid. rewrite create_room_unfold. cbv zeta. fold player db1 pid.
  set (s1 := mkStore db1 (looked_up s) (drop 6 (random s))).
  destruct (retry_code_spec 5 (gen_code (take 6 (random s ++ replicate 6 0))) s1)
    as (c & d & Hr & Hdb & Hl & Hlen & Hlast & Hfree & Hshape).
  destruct (retry_code 5 _ s1) as [[c0|e] s2]; cbn [fst snd] in *; [|done].
  injection Hr as ->. exists c, d. cbn [db looked_up]. rewrite Hdb.
  split_and!; try done; try lia.
  - apply Hshape. by rewrite length_gen_code, length_padded_draws.
  - intros ?. apply Hfree. lia.
Qed.



Lemma join_room_unfold payload s :
  join_room payload s =
    let player := PlayerDocument (mkPlayerDoc (jr_name payload) (jr_avatar payload)) in
    let asked := mkStore (db s) (looked_up s ++ [upper (jr_code payload)]) (random s) in
    match head (get_documents ROOMS_COLLECTION (upper (jr_code payload)) 1 (db s)) with
    | None => (Abort (mkHTTPException 404 "Room not found"), asked)
    | Some room =>
        if decide (status room = "active"%string)
        then (Abort (mkHTTPException 400 "Game already started"), asked)
        else (Reply (code room, (create_document PLAYERS_COLLECTION player (db s)).2),
              mkStore (update_one ROOMS_COLLECTION (code room)
                         (AddToSetPlayers
                            (create_document PLAYERS_COLLECTION player (db s)).2)
                         (create_document PLAYERS_COLLECTION player (db s)).1)
                (looked_up s ++ [upper (jr_code payload)]) (random s))
    end.
Proof.
  unfold join_room, mbind, H_bind, get_room_by_code, insert_document, update_room, raise.
  destruct (head _) as [room|]; [|done].
  destruct (decide _); [done|]. cbn [db looked_up random].
  by destruct (create_document _ _ _).
Qed.

(** X11. [join_room] refuses with 404 exactly when the uppercased code does not
    resolve and with 400 exactly when the room found has status "active"; a
    refused request writes nothing. Any other room is joined, one whose
    status is "finished" as well: a player is created and added to the room
    under the code stored in the directory, and that code and the new id are
    the reply. *)
Theorem join_room_refuses_exactly payload s :
  let found := head (get_documents ROOMS_COLLECTION (upper (jr_code payload)) 1 (db s)) in
  let player := PlayerDocument (mkPlayerDoc (jr_name payload) (jr_avatar payload)) in
  ((join_room payload s).1 = Abort (mkHTTPException 404 "Room not found")
   ↔ found = None) ∧
  ((join_room payload s).1 = Abort (mkHTTPException 400 "Game already started")
   ↔ ∃ room, found = Some room ∧ status room = "active"%string) ∧
  (∀ e, (join_room payload s).1 = Abort e → db (join_room payload s).2 = db s) ∧
  (∀ room, found = Some room → status room ≠ "active"%string →
     (join_room payload s).1
     = Reply (code room, (create_document PLAYERS_COLLECTION player (db s)).2) ∧
     db (join_room payload s).2
     = update_one ROOMS_COLLECTION (code room)
         (AddToSetPlayers (create_document PLAYERS_COLLECTION player (db s)).2)
         (create_document PLAYERS_COLLECTION player (db s)).1).
Proof.
  intros found player. subst found. rewrite join_room_unfold. cbv zeta. fold player.
  destruct (head _) as [room|]; [destruct (decide _) as [Ha|Ha]|];
    cbn [fst snd db]; split_and!; try done.
  - split; [intros _; by eexists | done].
  - by intros room' [= <-].
  - split; [done|]. by intros (room' & [= <-] & ?).
  - by intros room' [= <-].
  - split; [done|]. by intros (room' & ? & _).
Qed.


End HttpMore.

(** * More on interleaved runs *)

Section InterleavingMore.
Import Async.
Context {Link : Type} `{!Transport Link}.
Implicit Types (s : State Link) (evs : list event).

(** X13. In every state the event loop can reach, each room is bound to a list
    that has been allocated, and no two rooms are bound to the same list
    object. *)
Theorem reachable_rooms_own_their_lists (k : Link) evs r1 r2 ℓ :
  let s := run evs (init k) in
  registry s !! r1 = Some ℓ →
  is_Some (heap s !! ℓ) ∧ (registry s !! r2 = Some ℓ → r1 = r2).
Proof.
  intros s Hr. destruct (wf_run evs (init k) (wf_init k)) as [Hb Hi].
  split; [|by apply Hi]. apply lookup_lt_is_Some_2. by eapply Hb.
Qed.

Lemma live_advance_other t r message ℓ i living (k : Link) d s room :
  wf s → r ≠ room →
  live (advance t r message ℓ i living k d s) room = live s room.
Proof.
  intros Hwf Hr. unfold advance.
  destruct (deref (heap s) ℓ !! i); [done|]. by apply live_alloc_ne.
Qed.

(** X14. An event that does not act on a room leaves the list the room is
    bound to as it is, whatever else is in flight: registrations,
    unregistrations and broadcasts in other rooms never change it. *)
Theorem other_rooms_are_untouched (k : Link) evs e room :
  let s := run evs (init k) in
  acts_on room s e = false →
  live (step e s) room = live s room.
Proof.
  intros s Hact. pose proof (wf_run evs (init k) (wf_init k)) as Hwf. fold s in Hwf.
  clearbody s. destruct e as [r y|r y|t r message|t]; simpl in *.
  - apply bool_decide_eq_false in Hact.
    destruct (ws_accept y (wire s)) as [k' [[]|e]]; [|done].
    destruct (registry s !! r) as [ℓ'|] eqn:ER; [|by apply live_alloc_ne].
    unfold live. simpl. destruct (registry s !! room) as [ℓ|] eqn:ER'; simpl; [|done].
    apply list_lookup_insert_ne. intros ->. destruct Hwf as [_ Hi].
    by apply Hact, (Hi r room ℓ).
  - apply bool_decide_eq_false in Hact.
    destruct (registry s !! r) as [ℓ'|] eqn:ER; [|done].
    destruct (decide (y ∈ deref (heap s) ℓ')); [|done].
    unfold live. simpl.
    assert (registry s !! room = 
            match list_remove y (deref (heap s) ℓ') with
            | [] => delete r (registry s)
            | _ => registry s
            end !! room) as <-.
    { destruct (list_remove y (deref (heap s) ℓ')); [|done].
      by rewrite lookup_delete_ne. }
    destruct (registry s !! room) as [ℓ|] eqn:ER'; simpl; [|done].
    apply list_lookup_insert_ne. intros ->. destruct Hwf as [_ Hi].
    by apply Hact, (Hi r room ℓ).
  - apply bool_decide_eq_false in Hact.
    destruct (tasks s !! t); [done|]. destruct (registry s !! r); [|done].
    by apply live_advance_other.
  - destruct (tasks s !! t) as [T|]; [|done].
    apply bool_decide_eq_false in Hact.
    destruct (ws_send_json (t_ws T) (t_message T) (wire s)) as [k' [[]|e]];
      by apply live_advance_other.
Qed.

Lemma kept_were_sent_step e s : kept_were_sent s → kept_were_sent (step e s).
Proof.
  intros Hs. destruct e as [r y|r y|t r message|t]; simpl.
  - destruct (ws_accept y (wire s)) as [k' [[]|e]]; [|done].
    by destruct (registry s !! r).
  - destruct (registry s !! r) as [ℓ|]; [|done].
    by destruct (decide (y ∈ deref (heap s) ℓ)).
  - destruct (tasks s !! t) as [T|] eqn:ET; [done|].
    destruct (registry s !! r) as [ℓ|]; [|done]. unfold advance.
    destruct (deref (heap s) ℓ !! 0) as [ws|]; intros t' T'; simpl.
    + rewrite lookup_insert. case_decide; [|exact (Hs t' T')].
      intros [= <-]. simpl. by intros y ?%elem_of_nil.
    + rewrite lookup_delete. case_decide; [done|]. exact (Hs t' T').
  - destruct (tasks s !! t) as [T|] eqn:ET; [|done].
    destruct (ws_send_json (t_ws T) (t_message T) (wire s)) as [k' [[]|e]];
      unfold advance;
      destruct (deref (heap s) (t_list T) !! t_index T) as [ws|];
      intros t' T'; simpl;
      rewrite ?lookup_insert, ?lookup_delete; case_decide; try done;
      try (intros HT y Hy; apply elem_of_app; left; by apply (Hs t' T'));
      try exact (Hs t' T').
    + intros [= <-] y. simpl. rewrite !elem_of_app, !list_elem_of_singleton.
      intros [Hy| ->]; [left; by apply (Hs t T) | by right].
    + intros [= <-] y. simpl. by apply (Hs t T).
Qed.

Lemma kept_were_sent_run evs s : kept_were_sent s → kept_were_sent (run evs s).
Proof.
  revert s. induction evs as [|e evs IH]; intros s Hs; [done|].
  rewrite run_cons. by apply IH, kept_were_sent_step.
Qed.

(** X15. Under every schedule, when a broadcast ends, the list it binds its
    room to holds only sessions that were sent the message of that broadcast
    and took it: a broadcast never keeps a session it did not deliver to. *)
Theorem broadcast_keeps_only_the_delivered (k : Link) evs t T :
  let s := run evs (init k) in
  let s' := step (Resume t) s in
  tasks s !! t = Some T →
  tasks s' !! t = None →
  ∃ l, live s' (t_room T) = Some l ∧
       ∀ y, y ∈ l → (y, t_message T) ∈ delivered s'.
Proof.
  intros s s' ET Hend.
  assert (kept_were_sent s) as Hs.
  { apply kept_were_sent_run. intros t' T'. simpl. by rewrite lookup_empty. }
  subst s'. clearbody s. simpl in *. rewrite ET in *.
  destruct (ws_send_json (t_ws T) (t_message T) (wire s)) as [k' [[]|e]];
    unfold advance in *;
    destruct (deref (heap s) (t_list T) !! t_index T) as [ws|]; simpl in *;
    try (by rewrite lookup_insert_eq in Hend);
    rewrite live_alloc; eexists; (split; [done|]); intros y.
  - rewrite !elem_of_app, !list_elem_of_singleton.
    intros [Hy| ->]; [left; by apply (Hs t T) | by right].
  - by apply (Hs t T).
Qed.

Lemma view_lookup s r :
  active (view s) !! r = live s r.
Proof. unfold view, live. simpl. by rewrite lookup_omap. Qed.

(** X17. On the lists the rooms are bound to, a registration and an
    unregistration in the event loop do what the sequential [connect] and
    [disconnect] do, in every reachable state and whatever is in flight. *)
Theorem registration_agrees_with_sequential (k : Link) evs r y :
  let s := run evs (init k) in
  view (step (Connect r y) s) = (connect r y (view s)).2 ∧
  view (step (Disconnect r y) s) = (disconnect r y (view s)).2.
Proof.
  intros s. pose proof (wf_run evs (init k) (wf_init k)) as Hwf. fold s in Hwf.
  clearbody s. destruct Hwf as [Hb Hi]. split.
  - rewrite connect_unfold, (view_lookup s r). cbn [step view link sent active].
    destruct (ws_accept y (wire s)) as [k' [[]|e]]; [|done].
    unfold live.
    destruct (registry s !! r) as [ℓ|] eqn:ER; cbn [mbind option_bind].
    + destruct (lookup_lt_is_Some_2 (heap s) ℓ (Hb _ _ ER)) as [l El].
      unfold deref, view. rewrite El. cbn [default snd heap registry wire delivered].
      f_equal. apply map_eq. intros r'. rewrite lookup_omap.
      destruct (decide (r' = r)) as [->|Hr].
      * rewrite ER, lookup_insert_eq. cbn [mbind option_bind].
        apply list_lookup_insert_eq. by eapply Hb.
      * rewrite lookup_insert_ne, lookup_omap by done.
        destruct (registry s !! r') as [ℓ'|] eqn:ER'; cbn [mbind option_bind]; [|done].
        apply list_lookup_insert_ne. intros ->. by apply Hr, (Hi r' r ℓ').
    + unfold view. cbn [default snd heap registry wire delivered app].
      f_equal. apply map_eq. intros r'. rewrite lookup_omap.
      destruct (decide (r' = r)) as [->|Hr].
      * rewrite !lookup_insert_eq. cbn [mbind option_bind]. by apply list_lookup_middle.
      * rewrite !lookup_insert_ne, lookup_omap by done.
        destruct (registry s !! r') as [ℓ'|] eqn:ER'; cbn [mbind option_bind]; [|done].
        apply lookup_app_l. by eapply Hb.
  - rewrite disconnect_unfold, (view_lookup s r). cbn [step snd].
    unfold live.
    destruct (registry s !! r) as [ℓ|] eqn:ER; cbn [mbind option_bind]; [|done].
    destruct (lookup_lt_is_Some_2 (heap s) ℓ (Hb _ _ ER)) as [l El].
    unfold deref. rewrite El. cbn [default from_option id].
    destruct (decide (y ∈ l)) as [Hin|Hin]; [|done].
    assert (∀ r' l', r' ≠ r →
      registry s !! r' ≫= (λ ℓ', <[ℓ := l']> (heap s) !! ℓ')
      = registry s !! r' ≫= (λ ℓ', heap s !! ℓ')) as Hother.
    { intros r' l' Hr. destruct (registry s !! r') as [ℓ'|] eqn:ER';
        cbn [mbind option_bind]; [|done].
      apply list_lookup_insert_ne. intros ->. by apply Hr, (Hi r' r ℓ'). }
    destruct (list_remove y l) as [|z l'] eqn:Erem;
      unfold view; cbn [heap registry wire delivered link sent active];
      f_equal; apply map_eq; intros r'; rewrite lookup_omap;
      destruct (decide (r' = r)) as [->|Hr].
    + by rewrite !lookup_delete_eq.
    + rewrite !lookup_delete_ne, lookup_omap by done. by apply Hother.
    + rewrite ER, lookup_insert_eq. cbn [mbind option_bind].
      apply list_lookup_insert_eq. by eapply Hb.
    + rewrite lookup_insert_ne, lookup_omap by done. by apply Hother.
Qed.

End InterleavingMore.

(** * Leaving a room, and the diagnostic endpoint *)

Section Leaving.
Context {Link : Type} `{!Transport Link}.
Implicit Types (w : World Link).


End Leaving.

(** X18. [test_database] never reports the "Not Available" text it starts
    from: every path overwrites it. It reports "Connected" exactly when there
    is a handle whose name can be read, also when listing the collections then
    fails; it lists at most the first ten collections, and quotes at most the
    first fifty characters of an error. *)
Theorem test_database_report db_handle url :
  let r := test_database db_handle url in
  backend_running r = true ∧
  database r ≠ NotAvailable ∧
  (connected r = true ↔
   ∃ h, db_handle = Some h ∧ ∀ msg, handle_name h ≠ AttributeRaises msg) ∧
  (∃ names, collections r = take 10 names ∧ length (collections r) ≤ 10 ∧
     (database r = ConnectedAndWorking →
      ∃ h, db_handle = Some h ∧ list_collection_names h = inl names)) ∧
  (∀ msg, database r = ConnectedButError msg ∨ database r = ErrorText msg →
          length msg ≤ 50).
Proof.
  intros r. subst r. unfold test_database.
  destruct db_handle as [[nm ls]|]; simpl.
  - destruct nm as [|v|msg0]; simpl; [destruct ls as [names|msg1]..|]; simpl;
      (split_and!;
       [done
       |done
       |first [split; [intros _; eexists; split; [done|]; by intros msg
                      |done]
              |split; [done|]; intros (h & [= <-] & Hh); by destruct (Hh msg0)]
       |first [exists names; split; [done|]; split;
                 [rewrite length_take; lia|]; intros _; by eexists
              |exists []; split; [done|]; split; [simpl; lia|done]]
       |intros msg [[= <-]|[= <-]]; rewrite length_take; lia
        || (intros msg [|]; done)]).
  - split_and!; try done.
    + split; [done|]. by intros (h & ? & _).
    + exists []. split; [done|]. split; [simpl; lia|done].
    + by intros msg [|].
Qed.

(** * The further properties on concrete runs *)

Lemma disconnect_removes_one_occurrence_witness :
  let w := world0 {[room_A := [7; 8; 7]]} (quiet []) in
  S (occurrences 7 (default [] (active (disconnect room_A 7 w).2 !! room_A)))
  = occurrences 7 (default [] (active w !! room_A)).
Proof.
  intros w.
  refine (proj1 (disconnect_removes_one_occurrence room_A 7 w) _).
  vm_compute. by left.
Defined.

Lemma connect_then_disconnect_restores_witness :
  let w := world0 {[room_B := [2]]} (quiet []) in
  active (disconnect room_A 1 (connect room_A 1 w).2).2 = active w.
Proof.
  intros w. apply (connect_then_disconnect_restores room_A 1 w).
  - vm_compute. by intros ?%elem_of_nil.
  - vm_compute. discriminate.
  - vm_compute. reflexivity.
Defined.



Lemma registry_stays_duplicate_free_witness :
  let w := world0 {[room_A := [1; 2]]} (quiet [2]) in
  map_Forall (λ _ l, NoDup l) (active (broadcast room_A chat_hi w).2).
Proof.
  intros w.
  refine (proj2 (proj2 (registry_stays_duplicate_free room_A 1 chat_hi w _))).
  subst w. simpl. apply map_Forall_singleton.
  apply NoDup_cons. split; [|apply NoDup_singleton].
  intros ?%list_elem_of_singleton. discriminate.
Defined.

(** One frame is read and broadcast, then the peer closes. *)
Lemma ws_room_cleans_up_witness :
  let w := world0 {[room_AB12C9 := [1]]} (mkWire [] [] [(5, Ok chat_hi)]) in
  (ws_room 5 "ab12c9" 2 w).1 = Ok Returned ∧
  5 ∉ default [] (active (ws_room 5 "ab12c9" 2 w).2 !! upper "ab12c9").
Proof.
  intros w.
  assert ((ws_room 5 "ab12c9" 2 w).1 = Ok Returned) as Hret
    by (vm_compute; reflexivity).
  split; [exact Hret|].
  refine (proj2 (ws_room_cleans_up 5 "ab12c9" 2 w _) _ Hret).
  - vm_compute. reflexivity.
  - vm_compute. intros Hin.
    apply elem_of_cons in Hin as [Hin|Hin]; [discriminate|by apply elem_of_nil in Hin].
Defined.


Lemma join_room_refuses_exactly_witness :
  (join_room (mkJoinRoomRequest "bob" None "zz9999") one_room).1
  = Abort (mkHTTPException 404 "Room not found").
Proof.
  refine (proj2 (proj1 (join_room_refuses_exactly
            (mkJoinRoomRequest "bob" None "zz9999") one_room)) _).
  vm_compute. reflexivity.
Defined.


Lemma reachable_rooms_own_their_lists_witness :
  let s := run [Connect room_A 1; Connect room_B 2] (init (quiet [])) in
  registry s !! room_A = Some 0 ∧ (registry s !! room_B = Some 0 → room_A = room_B).
Proof.
  intros s.
  assert (registry s !! room_A = Some 0) as Hr by (vm_compute; reflexivity).
  split; [exact Hr|].
  exact (proj2 (reachable_rooms_own_their_lists (quiet [])
                  [Connect room_A 1; Connect room_B 2] room_A room_B 0 Hr)).
Defined.

(** Room B keeps its list while a session leaves room A in the middle of a
    broadcast to room A. *)
Lemma other_rooms_are_untouched_witness :
  let evs := [Connect room_A 1; Connect room_B 2; Broadcast 0 room_A chat_hi] in
  live (step (Disconnect room_A 1) (run evs (init (quiet [])))) room_B
  = live (run evs (init (quiet []))) room_B.
Proof.
  intros evs.
  apply (other_rooms_are_untouched (quiet []) evs (Disconnect room_A 1) room_B).
  vm_compute. reflexivity.
Defined.

(** Session 1 leaves while the send to it is pending and is kept by the
    broadcast: it was sent the message. *)
Lemma broadcast_keeps_only_the_delivered_witness :
  let evs := [Connect room_A 1; Connect room_A 2; Broadcast 0 room_A chat_hi;
              Disconnect room_A 1] in
  let s' := step (Resume 0) (run evs (init (quiet []))) in
  ∃ l, live s' room_A = Some l ∧ ∀ y, y ∈ l → (y, chat_hi) ∈ delivered s'.
Proof.
  intros evs s'.
  refine (broadcast_keeps_only_the_delivered (quiet []) evs 0
            (mkTask room_A chat_hi 0 1 1 []) _ _);
    vm_compute; reflexivity.
Defined.

Lemma broadcast_alone_witness :
  let s := run [Connect room_A 1; Connect room_A 2] (init (quiet [2])) in
  view (run (Broadcast 0 room_A chat_hi :: replicate 2 (Resume 0)) s)
  = (broadcast room_A chat_hi (view s)).2.
Proof.
  intros s.
  refine (broadcast_alone 0 room_A chat_hi s _ _).
  - apply wf_run, wf_init.
  - vm_compute. reflexivity.
Defined.

